(** * Validation plotter of the 2D heat-sink example: grid interpolation,
    fin masking and difference panels

    This development embeds the repository-local logic of
    [heat_sink_pic.py] (class [CustomValidatorPlotter] and the fin
    geometry of [run]) and proves properties of it.

    - Numbers are IEEE-754 binary64 values, as Python floats and NumPy
      [float64] arrays hold them, taken from the Standard Library's
      executable specification [SpecFloat] (round to nearest, ties to
      even; one NaN).
    - A 1-D array is a [list float], a 2-D array a list of rows.
    - [scipy.interpolate.griddata] is an external routine: it is a
      parameter of the sections that use it, and may fail.
    - The last part threads an explicit store of arrays through the
      plotting call, with column views aliasing their base array, to
      follow which arrays the call writes to. *)

From Stdlib Require Import ZArith SpecFloat.
From stdpp Require Import base option list strings gmap.

Set Default Proof Using "Type".

(** ** Binary64 arithmetic *)

Module F64.

Definition prec : Z := 53.
Definition emax : Z := 1024.

Abbreviation float := spec_float.

Definition add : float -> float -> float := SFadd prec emax.
Definition sub : float -> float -> float := SFsub prec emax.
Definition mul : float -> float -> float := SFmul prec emax.
Definition div : float -> float -> float := SFdiv prec emax.
Definition opp : float -> float := SFopp.

(** [x <= y], [x >= y], [x < y], [x == y]; all false on NaN. *)
Definition leb (x y : float) : bool := SFleb x y.
Definition geb (x y : float) : bool := SFleb y x.
Definition ltb (x y : float) : bool := SFltb x y.
Definition eqb (x y : float) : bool := SFeqb x y.

Definition nan : float := S754_nan.
Definition zero : float := S754_zero false.
Definition infinity : float := S754_infinity false.

Definition is_nan (x : float) : bool :=
  match x with S754_nan => true | _ => false end.

Definition is_inf (x : float) : bool :=
  match x with S754_infinity _ => true | _ => false end.

(** Zero or a finite non-zero number. *)
Definition is_finite (x : float) : bool :=
  match x with S754_zero _ | S754_finite _ _ _ => true | _ => false end.

(** The largest finite binary64 number, [np.finfo(np.float64).max]. *)
Definition max_float : float := SFmax_float prec emax.

(** [float(n)] for a Python integer [n]: correctly rounded.  (Python
    raises [OverflowError] from [2^1024] on, where this gives an
    infinity; no integer of that size occurs in the program.) *)
Definition of_int (n : Z) : float := binary_normalize prec emax n 0 false.

(** The decimal literal [m * 10^-k].  Both [m] and [10^k] are exact in
    binary64 for the literals of the program, and IEEE division is
    correctly rounded, so this is the double nearest to the decimal, as
    Python's parser produces it. *)
Definition dec (m : Z) (k : nat) : float :=
  div (of_int m) (of_int (10 ^ Z.of_nat k)).

(** Order as propositions, for statements. *)
Definition le (x y : float) : Prop := leb x y = true.

(** A key whose lexicographic order is the order [SFcompare] decides. *)
Definition key (x : float) : Z * Z * Z :=
  match x with
  | S754_nan => (0, 0, 0)%Z
  | S754_infinity true => (-2, 0, 0)%Z
  | S754_infinity false => (2, 0, 0)%Z
  | S754_zero _ => (0, 0, 0)%Z
  | S754_finite true m e => (-1, - e, Zneg m)%Z
  | S754_finite false m e => (1, e, Zpos m)%Z
  end.

Definition lex_le (a b : Z * Z * Z) : Prop :=
  let '(a1, a2, a3) := a in
  let '(b1, b2, b3) := b in
  (a1 < b1 \/ (a1 = b1 /\ (a2 < b2 \/ (a2 = b2 /\ a3 <= b3))))%Z.

Definition lex_lt (a b : Z * Z * Z) : Prop :=
  let '(a1, a2, a3) := a in
  let '(b1, b2, b3) := b in
  (a1 < b1 \/ (a1 = b1 /\ (a2 < b2 \/ (a2 = b2 /\ a3 < b3))))%Z.

End F64.

Abbreviation float := spec_float.

(** ** Arrays *)

Abbreviation array1 := (list float).
Abbreviation array2 := (list (list float)).
Abbreviation mask2 := (list (list bool)).

(** [a[r, c]] *)
Definition cell {A} (a : list (list A)) (r c : nat) : option A :=
  row ← a !! r; row !! c.

(** [a.shape == (rows, cols)] *)
Definition has_shape {A} (rows cols : nat) (a : list (list A)) : Prop :=
  length a = rows /\ Forall (fun row => length row = cols) a.

(** Equal shapes, decided. *)
Definition same_shape {A B} (a : list (list A)) (b : list (list B)) : bool :=
  bool_decide (map length a = map length b).

(** Elementwise unary and binary operations of equally shaped arrays.
    NumPy broadcasting of unequal shapes is not modelled: the arrays
    the program combines come from one [meshgrid] call. *)
Definition map2d {A B} (f : A -> B) (a : list (list A)) : list (list B) :=
  map (map f) a.

Definition zip2d {A B C} (f : A -> B -> C)
    (a : list (list A)) (b : list (list B)) : list (list C) :=
  zip_with (zip_with f) a b.

(** ** NumPy operations on array values *)

Module Np.

(** [np.zeros_like(a, dtype=bool)] *)
Definition zeros_like_bool {A} (a : list (list A)) : mask2 :=
  map2d (fun _ => false) a.

(** [a >= s], [a <= s] for an array [a] and a scalar [s]. *)
Definition ge_scalar (a : array2) (s : float) : mask2 :=
  map2d (fun v => F64.geb v s) a.
Definition le_scalar (a : array2) (s : float) : mask2 :=
  map2d (fun v => F64.leb v s) a.

(** [m1 & m2], [m1 | m2] *)
Definition and2d (m1 m2 : mask2) : mask2 := zip2d andb m1 m2.
Definition or2d (m1 m2 : mask2) : mask2 := zip2d orb m1 m2.

(** [np.arange(0, n)] as floats. *)
Definition arange (n : nat) : array1 :=
  map (fun i => F64.of_int (Z.of_nat i)) (seq 0 n).

(** [np.linspace(start, stop, num)] with [endpoint=True], following
    NumPy's algorithm: [step = (stop - start) / (num - 1)],
    [y = arange(num) * step + start], the last sample overwritten with
    [stop]; when [step] is zero the samples are [arange(num) / (num - 1)
    * delta + start]. *)
Definition linspace (start stop : float) (num : nat) : array1 :=
  let div := (num - 1)%nat in
  let delta := F64.sub stop start in
  let y := arange num in
  let y :=
    if bool_decide (0 < div)%nat then
      let step := F64.div delta (F64.of_int (Z.of_nat div)) in
      if F64.eqb step F64.zero
      then map (fun v =>
                  F64.mul (F64.div v (F64.of_int (Z.of_nat div))) delta) y
      else map (fun v => F64.mul v step) y
    else map (fun v => F64.mul v delta) y in
  let y := map (fun v => F64.add v start) y in
  if bool_decide (1 < num)%nat then <[(num - 1)%nat := stop]> y else y.

(** [np.meshgrid(a, b, indexing="ij")]: [xi[i, j] = a[i]],
    [yi[i, j] = b[j]]. *)
Definition meshgrid_ij (a b : array1) : array2 * array2 :=
  (map (fun ai => map (fun _ => ai) b) a, map (fun _ => b) a).

(** One entry under [np.nan_to_num(_, nan=..., posinf=..., neginf=...)]:
    NaN becomes [nan]; an infinity becomes [posinf] / [neginf], which
    default to the largest and the most negative finite number. *)
Definition nan_to_num_entry (nan : float) (posinf neginf : option float)
    (v : float) : float :=
  match v with
  | S754_nan => nan
  | S754_infinity false => default F64.max_float posinf
  | S754_infinity true => default (F64.opp F64.max_float) neginf
  | _ => v
  end.

Definition nan_to_num (nan : float) (posinf neginf : option float)
    (val : array2) : array2 :=
  map2d (nan_to_num_entry nan posinf neginf) val.

(** [a[mask] = v] on a copy: NumPy raises [IndexError] when the boolean
    index does not have the shape of [a]. *)
Definition setitem_mask (a : array2) (mask : mask2) (v : float)
    : option array2 :=
  if same_shape a mask
  then Some (zip2d (fun x (m : bool) => if m then v else x) a mask)
  else None.

(** [a[:, 0]] of a 2-D array: [IndexError] when a row has no column 0. *)
Definition column0 (a : array2) : option array1 :=
  mapM (fun row => row !! 0%nat) a.

(** [np.minimum], [np.maximum] of two scalars: NaN propagates. *)
Definition minimum (a b : float) : float :=
  if F64.is_nan a then a else if F64.is_nan b then b
  else if F64.ltb b a then b else a.
Definition maximum (a b : float) : float :=
  if F64.is_nan a then a else if F64.is_nan b then b
  else if F64.ltb a b then b else a.

(** [a.min()], [a.max()]: [ValueError] on an empty array. *)
Definition amin (a : array1) : option float :=
  match a with [] => None | v :: a => Some (foldl minimum v a) end.
Definition amax (a : array1) : option float :=
  match a with [] => None | v :: a => Some (foldl maximum v a) end.

(** All entries are numerically equal to [a]. *)
Definition all_equal_to (a : float) (v : array1) : Prop :=
  Forall (fun u => F64.eqb u a = true) v.

(** [a * s] for a 1-D array and a scalar. *)
Definition mul_scalar (a : array1) (s : float) : array1 :=
  map (fun v => F64.mul v s) a.

(** [a - b], elementwise. *)
Definition sub2d (a b : array2) : array2 := zip2d F64.sub a b.

(** [a.T] *)
Definition ncols {A} (a : list (list A)) : nat :=
  match a with [] => 0%nat | row :: _ => length row end.
Definition transpose {A} (a : list (list A)) : list (list A) :=
  foldr (zip_with cons) (replicate (ncols a) []) a.

End Np.

Import Np.

(** ** The fin mask *)

(** The local constants of [heat_sink_mask], gathered in a record so
    that statements can vary them. *)
Module Fin.
Record t := mk {
  heat_sink_x : float;
  heat_sink_y_start : float;
  fin_thickness : float;
  nr_fins : nat;
  gap : float;
  length : float
}.
Definition with_nr_fins (n : nat) (fs : t) : t :=
  mk (heat_sink_x fs) (heat_sink_y_start fs) (fin_thickness fs) n
     (gap fs) (length fs).
End Fin.

(** [fin_y = heat_sink_y_start + j * gap] *)
Definition fin_y (fs : Fin.t) (j : nat) : float :=
  F64.add (Fin.heat_sink_y_start fs)
          (F64.mul (F64.of_int (Z.of_nat j)) (Fin.gap fs)).

(** The right-hand side of [mask |= ...] for fin [j]. *)
Definition fin_band (fs : Fin.t) (xi yi : array2) (j : nat) : mask2 :=
  let fin_y := fin_y fs j in
  and2d (and2d (and2d
    (ge_scalar xi (Fin.heat_sink_x fs))
    (le_scalar xi (F64.add (Fin.heat_sink_x fs) (Fin.length fs))))
    (ge_scalar yi fin_y))
    (le_scalar yi (F64.add fin_y (Fin.fin_thickness fs))).

(** The body of [heat_sink_mask] for given constants:
    [mask = zeros_like(xi); for j in range(nr_fins): mask |= band j]. *)
Definition fin_mask (fs : Fin.t) (xi yi : array2) : mask2 :=
  foldl (fun mask j => or2d mask (fin_band fs xi yi j))
        (zeros_like_bool xi) (seq 0 (Fin.nr_fins fs)).

(** The constants written in [heat_sink_mask]. *)
Definition mask_fins : Fin.t :=
  Fin.mk (F64.of_int (-1))                       (* heat_sink_x = -1 *)
         (F64.dec (-3) 1)                        (* heat_sink_y_start = -0.3 *)
         (F64.dec 1 1)                           (* fin_thickness = 0.1 *)
         3                                       (* nr_fins = 3 *)
         (F64.add (F64.dec 15 2) (F64.dec 1 1))  (* gap = 0.15 + 0.1 *)
         (F64.dec 10 1).                         (* length = 1.0 *)

Definition heat_sink_mask (xi yi : array2) : mask2 :=
  fin_mask mask_fins xi yi.

(** The closed rectangle test of one fin at one point. *)
Definition in_fin (fs : Fin.t) (j : nat) (x y : float) : Prop :=
  F64.le (Fin.heat_sink_x fs) x /\
  F64.le x (F64.add (Fin.heat_sink_x fs) (Fin.length fs)) /\
  F64.le (fin_y fs j) y /\
  F64.le y (F64.add (fin_y fs j) (Fin.fin_thickness fs)).

Definition in_finb (fs : Fin.t) (x y : float) (j : nat) : bool :=
  F64.geb x (Fin.heat_sink_x fs) &&
  F64.leb x (F64.add (Fin.heat_sink_x fs) (Fin.length fs)) &&
  F64.geb y (fin_y fs j) &&
  F64.leb y (F64.add (fin_y fs j) (Fin.fin_thickness fs)).

Abbreviation extent_t := (float * float * float * float)%type.

(** The grid of [interpolate_output]: 100 by 100 samples of the extent. *)
Definition grid_of (extent : extent_t) : array2 * array2 :=
  let '(e0, e1, e2, e3) := extent in
  meshgrid_ij (linspace e0 e1 100) (linspace e2 e3 100).

(** The step as the source calls it: [np.nan_to_num(val, nan=np.nan)]. *)
Definition nan_pass_through (val : array2) : array2 :=
  nan_to_num F64.nan None None val.

(** The same step as the specification describes it: a transformation
    that changes nothing. *)
Definition nan_pass_through_spec (val : array2) : array2 := val.

(** ** Interpolation onto the grid *)

Section Interpolation.

(** [scipy.interpolate.griddata((x, y), value, (xi, yi), method='linear')];
    [None] stands for an exception raised by the routine. *)
Variable griddata :
  array1 -> array1 -> array1 -> array2 -> array2 -> option array2.

(** What one input array becomes, given the grid and the mask: the
    interpolation, the pass-through step, the masked assignment.  Used
    to state what [interpolate_output] returns for each array. *)
Definition interpolate_one (x y : array1) (xi yi : array2) (mask : mask2)
    (value : array1) : option array2 :=
  val ← griddata x y value xi yi;
  setitem_mask (nan_pass_through val) mask F64.nan.

Definition interpolate_output (x y : array1) (values : list array1)
    (extent : extent_t) : option (list array2) :=
  let '(xi, yi) := grid_of extent in
  let mask := heat_sink_mask xi yi in
  interpolated_values ← mapM (fun value => griddata x y value xi yi) values;
  let interpolated_values := map nan_pass_through interpolated_values in
  mapM (fun val => setitem_mask val mask F64.nan) interpolated_values.

End Interpolation.

(** A stand-in for the interpolation routine, to run the definitions on
    examples: it raises when the sample arrays differ in length or are
    empty, and otherwise fills the query grid with the first sample
    value. *)
Definition constant_griddata (x y value : array1) (xi yi : array2)
    : option array2 :=
  if bool_decide (length x = length value /\ length y = length value)
  then match value with
       | [] => None
       | v :: _ => Some (map2d (fun _ => v) xi)
       end
  else None.

(** A stand-in that raises on sample points lying on one vertical or
    horizontal line, and otherwise answers as [constant_griddata]. *)
Definition is_flat (v : array1) : bool :=
  match v with
  | [] => true
  | a :: _ => forallb (fun u => F64.eqb u a) v
  end.

Definition guarded_griddata (x y value : array1) (xi yi : array2)
    : option array2 :=
  if is_flat x || is_flat y then None
  else constant_griddata x y value xi yi.

(** ** The plotting call *)

(** What [imshow] is given for one subplot, with the title set on its
    axes; [clim] is [(vmin, vmax)] when passed.  Axis labels, the colour
    map and the colour bars are left out. *)
Record Panel := mkPanel {
  title : string;
  image : array2;
  clim : option (float * float)
}.

Record Figure := mkFigure {
  suptitle : string;
  fig_extent : extent_t;
  panels : list Panel
}.

Definition colorbar_limits : gmap string (float * float) :=
  list_to_map
    [ ("p", (F64.of_int (-1), F64.of_int 9));
      ("u", (F64.of_int 0, F64.dec 22 1));
      ("v", (F64.dec (-12) 1, F64.dec 12 1));
      ("nu", (F64.dec 1 2, F64.dec 4 2));
      ("c", (F64.of_int 0, F64.of_int 55)) ].

(** The five quantities, in the order of the rows of the figure. *)
Definition quantities : list string := ["p"; "u"; "v"; "nu"; "c"].

Definition titles : list string :=
  [ "Modulus: p"; "OpenFOAM: p"; "Difference: p";
    "Modulus: u"; "OpenFOAM: u"; "Difference: u";
    "Modulus: v"; "OpenFOAM: v"; "Difference: v";
    "Modulus: nu"; "OpenFOAM: nu"; "Difference: nu";
    "Modulus: c"; "OpenFOAM: c"; "Difference: c" ].

Definition variables : list string :=
  [ "p"; "p"; "None"; "u"; "u"; "None"; "v"; "v"; "None";
    "nu"; "nu"; "None"; "c"; "c"; "None" ].

(** One turn of the loop over the 15 axes. *)
Definition draw_panel (data : list array2) (i : nat) : option Panel :=
  var ← variables !! i;
  d ← data !! i;
  t ← titles !! i;
  if bool_decide (var <> "None")
  then lim ← colorbar_limits !! var;
       Some (mkPanel t (transpose d) (Some lim))
  else Some (mkPanel t (transpose d) None).

(** The 15 arrays in plotting order, differences included (lines 84-89
    and 112-118 of the source). *)
Definition panel_data (interpolated : list array2) : option (list array2) :=
  match interpolated with
  | [p_true; u_true; v_true; nu_true; c_true;
     p_pred; u_pred; v_pred; nu_pred; c_pred] =>
      let p_diff := sub2d p_true p_pred in
      let u_diff := sub2d u_true u_pred in
      let v_diff := sub2d v_true v_pred in
      let nu_diff := sub2d nu_true nu_pred in
      let c_diff := sub2d c_true c_pred in
      Some [ p_pred; p_true; p_diff;
             u_pred; u_true; u_diff;
             v_pred; v_true; v_diff;
             nu_pred; nu_true; nu_diff;
             c_pred; c_true; c_diff ]
  | _ => None
  end.

Abbreviation fields := (gmap string array2).

(** [d[name][:, 0]] *)
Definition field (d : fields) (name : string) : option array1 :=
  a ← d !! name; column0 a.

(** Lines 56-74 of [__call__]: the sample coordinates, the extent, and
    the ten value arrays in the order in which they are handed to
    [interpolate_output] (five reference fields, then five predicted
    fields; [c] is scaled by 273.15). *)
Definition call_inputs (invar true_outvar pred_outvar : fields)
    : option (array1 * array1 * extent_t * list array1) :=
  x ← field invar "x";
  y ← field invar "y";
  x_min ← amin x; x_max ← amax x;
  y_min ← amin y; y_max ← amax y;
  let extent := (x_min, x_max, y_min, y_max) in
  p_true ← field true_outvar "p";
  u_true ← field true_outvar "u";
  v_true ← field true_outvar "v";
  nu_true ← field true_outvar "nu";
  c_true ← field true_outvar "c";
  let c_true := mul_scalar c_true (F64.dec 27315 2) in
  p_pred ← field pred_outvar "p";
  u_pred ← field pred_outvar "u";
  v_pred ← field pred_outvar "v";
  nu_pred ← field pred_outvar "nu";
  c_pred ← field pred_outvar "c";
  let c_pred := mul_scalar c_pred (F64.dec 27315 2) in
  Some (x, y, extent,
        [p_true; u_true; v_true; nu_true; c_true;
         p_pred; u_pred; v_pred; nu_pred; c_pred]).

Section Call.

Variable griddata :
  array1 -> array1 -> array1 -> array2 -> array2 -> option array2.

(** [CustomValidatorPlotter.__call__]; [None] when the call raises. *)
Definition call (invar true_outvar pred_outvar : fields)
    : option (list (Figure * string)) :=
  inputs ← call_inputs invar true_outvar pred_outvar;
  let '(x, y, extent, values) := inputs in
  interpolated ← interpolate_output griddata x y values extent;
  data ← panel_data interpolated;
  panels ← mapM (draw_panel data) (seq 0 15);
  Some [(mkFigure "Heat sink 2D: PINN vs True Solution" extent panels,
         "custom_plot")].

End Call.

(** Sample inputs to run the call on: three sample points, reference
    fields and predicted fields, each an N-by-1 array. *)
Definition column (vs : list Z) : array2 :=
  map (fun v => [F64.of_int v]) vs.

Definition sample_invar : fields :=
  list_to_map [("x", column [0; 1; 0]%Z); ("y", column [0; 0; 1]%Z)].

Definition sample_true_outvar : fields :=
  list_to_map
    [ ("p", column [3; 3; 3]%Z); ("u", column [2; 2; 2]%Z);
      ("v", column [1; 1; 1]%Z); ("nu", column [5; 5; 5]%Z);
      ("c", column [1; 1; 1]%Z) ].

Definition sample_pred_outvar : fields :=
  list_to_map
    [ ("p", column [1; 1; 1]%Z); ("u", column [2; 2; 2]%Z);
      ("v", column [4; 4; 4]%Z); ("nu", column [5; 5; 5]%Z);
      ("c", column [2; 2; 2]%Z) ].

(** Sample points on one vertical line. *)
Definition flat_invar : fields :=
  list_to_map [("x", column [2; 2; 2]%Z); ("y", column [0; 0; 1]%Z)].

(** ** The fin geometry built in [run] *)

(** [Rectangle(point_1, point_2)] of the geometry library: the axis
    parallel rectangle with these two corners. *)
Record Rectangle := mkRectangle {
  point_1 : float * float;
  point_2 : float * float
}.

(** [heat_sink] after the loop of [run] (lines 188-222); the union
    [heat_sink + fin] is kept as the list of its rectangles. *)
Definition run_heat_sink : list Rectangle :=
  let heat_sink_origin := (F64.of_int (-1), F64.dec (-3) 1) in
  let nr_heat_sink_fins := 3%nat in
  let gap := F64.add (F64.dec 15 2) (F64.dec 1 1) in
  let heat_sink_length := F64.dec 10 1 in
  let heat_sink_fin_thickness := F64.dec 1 1 in
  let heat_sink :=
    [ mkRectangle heat_sink_origin
        (F64.add (fst heat_sink_origin) heat_sink_length,
         F64.add (snd heat_sink_origin) heat_sink_fin_thickness) ] in
  snd (foldl
    (fun '(heat_sink_origin, heat_sink) (_ : nat) =>
       let heat_sink_origin :=
         (fst heat_sink_origin, F64.add (snd heat_sink_origin) gap) in
       let fin :=
         mkRectangle heat_sink_origin
           (F64.add (fst heat_sink_origin) heat_sink_length,
            F64.add (snd heat_sink_origin) heat_sink_fin_thickness) in
       (heat_sink_origin, heat_sink ++ [fin]))
    (heat_sink_origin, heat_sink)
    (seq 1 (nr_heat_sink_fins - 1))).

(** The rectangles that [heat_sink_mask] tests, one per loop turn. *)
Definition fin_rectangles (fs : Fin.t) : list Rectangle :=
  map (fun j =>
         mkRectangle (Fin.heat_sink_x fs, fin_y fs j)
           (F64.add (Fin.heat_sink_x fs) (Fin.length fs),
            F64.add (fin_y fs j) (Fin.fin_thickness fs)))
      (seq 0 (Fin.nr_fins fs)).

(** A point of the closed rectangle. *)
Definition in_rectangle (R : Rectangle) (x y : float) : Prop :=
  F64.le (fst (point_1 R)) x /\ F64.le x (fst (point_2 R)) /\
  F64.le (snd (point_1 R)) y /\ F64.le y (snd (point_2 R)).

(** ** The plotting call over a store of arrays

    NumPy arrays are mutable objects and slices are views of their base
    array.  Here the arrays live in a store; a reference names a whole
    array or a view of one, and every operation of the call reads its
    operands from the store and either allocates its result or, for the
    two in-place statements of the source ([mask |= ...] and
    [interpolated_values[i][mask] = np.nan]), overwrites its target.
    The library routines ([griddata], [nan_to_num], [min], [imshow],
    ...) read their arguments and return new arrays. *)

Module Store.

Inductive ndarray :=
| Vec (d : array1)
| Mat (d : array2)
| Mask (d : mask2).

Abbreviation heap := (list ndarray).

Inductive ref :=
| Whole (l : nat)        (* the array at address [l] *)
| Column0 (l : nat)      (* the view [a[:, 0]] of it *)
| Transposed (l : nat).  (* the view [a.T] of it *)

Definition base (r : ref) : nat :=
  match r with Whole l | Column0 l | Transposed l => l end.

(** Computations on the store that may raise. *)
Definition M (A : Type) : Type := heap -> option (A * heap).

#[export] Instance M_ret : MRet M := fun A a h => Some (a, h).
#[export] Instance M_bind : MBind M := fun A B f m h =>
  match m h with Some (a, h') => f a h' | None => None end.

Definition lift {A} (o : option A) : M A :=
  fun h => match o with Some a => Some (a, h) | None => None end.

Definition alloc (a : ndarray) : M ref :=
  fun h => Some (Whole (length h), h ++ [a]).

Definition read_vec (r : ref) : M array1 := fun h =>
  match r with
  | Whole l =>
      match h !! l with Some (Vec d) => Some (d, h) | _ => None end
  | Column0 l =>
      match h !! l with
      | Some (Mat d) => match Np.column0 d with
                        | Some v => Some (v, h) | None => None end
      | _ => None
      end
  | Transposed _ => None
  end.

Definition read_mat (r : ref) : M array2 := fun h =>
  match r with
  | Whole l =>
      match h !! l with Some (Mat d) => Some (d, h) | _ => None end
  | Transposed l =>
      match h !! l with Some (Mat d) => Some (Np.transpose d, h) | _ => None end
  | Column0 _ => None
  end.

Definition read_mask (r : ref) : M mask2 := fun h =>
  match r with
  | Whole l =>
      match h !! l with Some (Mask d) => Some (d, h) | _ => None end
  | Transposed l =>
      match h !! l with Some (Mask d) => Some (Np.transpose d, h) | _ => None end
  | Column0 _ => None
  end.

(** Overwriting the data that [r] refers to; through a view the write
    lands in the base array. *)
Definition write_mat (r : ref) (d : array2) : M unit := fun h =>
  match r with
  | Whole l =>
      match h !! l with
      | Some (Mat _) => Some ((), <[l := Mat d]> h) | _ => None end
  | Transposed l =>
      match h !! l with
      | Some (Mat _) => Some ((), <[l := Mat (Np.transpose d)]> h) | _ => None end
  | Column0 _ => None
  end.

Definition write_mask (r : ref) (d : mask2) : M unit := fun h =>
  match r with
  | Whole l =>
      match h !! l with
      | Some (Mask _) => Some ((), <[l := Mask d]> h) | _ => None end
  | Transposed l =>
      match h !! l with
      | Some (Mask _) => Some ((), <[l := Mask (Np.transpose d)]> h) | _ => None end
  | Column0 _ => None
  end.

(** [a[:, 0]] and [a.T] make views; nothing is copied. *)
Definition column0_view (r : ref) : M ref :=
  match r with
  | Whole l => _ ← read_vec (Column0 l); mret (Column0 l)
  | _ => lift None
  end.

Definition transpose_view (r : ref) : M ref :=
  match r with
  | Whole l => mret (Transposed l)
  | Transposed l => mret (Whole l)
  | Column0 _ => lift None
  end.

Abbreviation fields := (gmap string ref).

Definition field (d : fields) (name : string) : M ref :=
  a ← lift (d !! name); column0_view a.

Definition amin (r : ref) : M float :=
  v ← read_vec r; lift (Np.amin v).
Definition amax (r : ref) : M float :=
  v ← read_vec r; lift (Np.amax v).

Definition mul_scalar (r : ref) (s : float) : M ref :=
  v ← read_vec r; alloc (Vec (Np.mul_scalar v s)).

Definition linspace (start stop : float) (num : nat) : M ref :=
  alloc (Vec (Np.linspace start stop num)).

Definition meshgrid_ij (a b : ref) : M (ref * ref) :=
  va ← read_vec a; vb ← read_vec b;
  xi ← alloc (Mat (fst (Np.meshgrid_ij va vb)));
  yi ← alloc (Mat (snd (Np.meshgrid_ij va vb)));
  mret (xi, yi).

(** [mask |= rhs], in place. *)
Definition ior (mask rhs : ref) : M unit :=
  m ← read_mask mask; b ← read_mask rhs; write_mask mask (or2d m b).

(** [heat_sink_mask]; the right-hand side of each [|=] is one new
    temporary array. *)
Definition heat_sink_mask (xi yi : ref) : M ref :=
  vxi ← read_mat xi;
  mask ← alloc (Mask (zeros_like_bool vxi));
  _ ← mapM (fun j =>
         vxi ← read_mat xi; vyi ← read_mat yi;
         rhs ← alloc (Mask (fin_band mask_fins vxi vyi j));
         ior mask rhs)
       (seq 0 (Fin.nr_fins mask_fins));
  mret mask.

(** [a[mask] = v], in place. *)
Definition setitem_mask (a mask : ref) (v : float) : M unit :=
  va ← read_mat a; m ← read_mask mask;
  va' ← lift (Np.setitem_mask va m v);
  write_mat a va'.

Definition sub2d (a b : ref) : M ref :=
  va ← read_mat a; vb ← read_mat b; alloc (Mat (Np.sub2d va vb)).

Section Call.

Variable griddata :
  array1 -> array1 -> array1 -> array2 -> array2 -> option array2.

Definition griddata_call (x y value xi yi : ref) : M ref :=
  vx ← read_vec x; vy ← read_vec y; vv ← read_vec value;
  vxi ← read_mat xi; vyi ← read_mat yi;
  g ← lift (griddata vx vy vv vxi vyi);
  alloc (Mat g).

(** [np.nan_to_num(val, nan=np.nan)], with its default [copy=True]. *)
Definition nan_to_num_copy (val : ref) : M ref :=
  v ← read_mat val; alloc (Mat (Np.nan_to_num F64.nan None None v)).

Definition interpolate_output (x y : ref) (values : list ref)
    (extent : extent_t) : M (list ref) :=
  let '(e0, e1, e2, e3) := extent in
  a ← linspace e0 e1 100;
  b ← linspace e2 e3 100;
  grid ← meshgrid_ij a b;
  let '(xi, yi) := grid in
  mask ← heat_sink_mask xi yi;
  interpolated_values ← mapM (fun value => griddata_call x y value xi yi) values;
  interpolated_values ← mapM nan_to_num_copy interpolated_values;
  _ ← mapM (fun val => setitem_mask val mask F64.nan) interpolated_values;
  mret interpolated_values.

Definition draw_panel (data : list ref) (i : nat) : M Panel :=
  var ← lift (variables !! i);
  d ← lift (data !! i);
  t ← lift (titles !! i);
  dT ← transpose_view d;
  img ← read_mat dT;
  if bool_decide (var <> "None")
  then lim ← lift (colorbar_limits !! var);
       mret (mkPanel t img (Some lim))
  else mret (mkPanel t img None).

Definition panel_data (interpolated : list ref) : M (list ref) :=
  match interpolated with
  | [p_true; u_true; v_true; nu_true; c_true;
     p_pred; u_pred; v_pred; nu_pred; c_pred] =>
      p_diff ← sub2d p_true p_pred;
      u_diff ← sub2d u_true u_pred;
      v_diff ← sub2d v_true v_pred;
      nu_diff ← sub2d nu_true nu_pred;
      c_diff ← sub2d c_true c_pred;
      mret [ p_pred; p_true; p_diff;
             u_pred; u_true; u_diff;
             v_pred; v_true; v_diff;
             nu_pred; nu_true; nu_diff;
             c_pred; c_true; c_diff ]
  | _ => lift None
  end.

Definition call_inputs (invar true_outvar pred_outvar : fields)
    : M (ref * ref * extent_t * list ref) :=
  x ← field invar "x";
  y ← field invar "y";
  x_min ← amin x; x_max ← amax x;
  y_min ← amin y; y_max ← amax y;
  let extent := (x_min, x_max, y_min, y_max) in
  p_true ← field true_outvar "p";
  u_true ← field true_outvar "u";
  v_true ← field true_outvar "v";
  nu_true ← field true_outvar "nu";
  c_true ← field true_outvar "c";
  c_true ← mul_scalar c_true (F64.dec 27315 2);
  p_pred ← field pred_outvar "p";
  u_pred ← field pred_outvar "u";
  v_pred ← field pred_outvar "v";
  nu_pred ← field pred_outvar "nu";
  c_pred ← field pred_outvar "c";
  c_pred ← mul_scalar c_pred (F64.dec 27315 2);
  mret (x, y, extent,
        [p_true; u_true; v_true; nu_true; c_true;
         p_pred; u_pred; v_pred; nu_pred; c_pred]).

Definition call (invar true_outvar pred_outvar : fields)
    : M (list (Figure * string)) :=
  inputs ← call_inputs invar true_outvar pred_outvar;
  let '(x, y, extent, values) := inputs in
  interpolated ← interpolate_output x y values extent;
  data ← panel_data interpolated;
  panels ← mapM (draw_panel data) (seq 0 15);
  mret [(mkFigure "Heat sink 2D: PINN vs True Solution" extent panels,
         "custom_plot")].

End Call.

(** ** Predicates on stores *)

(** A reference whose base array was allocated after the store [h0]. *)
Definition fresh (h0 : heap) (r : ref) : Prop := (length h0 <= base r)%nat.

(** [m], started in any store that extends [h0], ends in a store that
    still extends [h0], with a result satisfying [Q]. *)
Definition preserves {A} (h0 : heap) (m : M A) (Q : A -> Prop) : Prop :=
  forall h a h', h0 `prefix_of` h -> m h = Some (a, h') ->
    h0 `prefix_of` h' /\ Q a.

(** What a reference holds in a store. *)
Definition vec_of (h : heap) (r : ref) (v : array1) : Prop :=
  read_vec r h = Some (v, h).
Definition mat_at (h : heap) (r : ref) (a : array2) : Prop :=
  exists l, r = Whole l /\ h !! l = Some (Mat a).
Definition mask_at (h : heap) (r : ref) (m : mask2) : Prop :=
  exists l, r = Whole l /\ h !! l = Some (Mask m).

(** The arrays a mapping refers to, read off the store. *)
Definition deref (h : heap) (r : ref) : option array2 :=
  match r with
  | Whole l => match h !! l with Some (Mat a) => Some a | _ => None end
  | _ => None
  end.
Definition snapshot (h : heap) (d : fields) : gmap string array2 :=
  omap (deref h) d.

(** A store computation and a computation on values fail together, and
    otherwise return related results. *)
Definition agrees {A B} (m : option (A * heap)) (p : option B)
    (R : A -> heap -> B -> Prop) : Prop :=
  match m, p with
  | Some (a, h'), Some b => R a h' b
  | None, None => True
  | _, _ => False
  end.

End Store.

(** The sample inputs placed in a store, and the mappings that refer to
    them. *)
Definition sample_store : Store.heap :=
  map Store.Mat
    [ column [0; 1; 0]%Z; column [0; 0; 1]%Z;
      column [3; 3; 3]%Z; column [2; 2; 2]%Z; column [1; 1; 1]%Z;
      column [5; 5; 5]%Z; column [1; 1; 1]%Z;
      column [1; 1; 1]%Z; column [2; 2; 2]%Z; column [4; 4; 4]%Z;
      column [5; 5; 5]%Z; column [2; 2; 2]%Z ].

Definition sample_invar_refs : Store.fields :=
  list_to_map [("x", Store.Whole 0); ("y", Store.Whole 1)].

Definition sample_true_outvar_refs : Store.fields :=
  list_to_map
    [ ("p", Store.Whole 2); ("u", Store.Whole 3); ("v", Store.Whole 4);
      ("nu", Store.Whole 5); ("c", Store.Whole 6) ].

Definition sample_pred_outvar_refs : Store.fields :=
  list_to_map
    [ ("p", Store.Whole 7); ("u", Store.Whole 8); ("v", Store.Whole 9);
      ("nu", Store.Whole 10); ("c", Store.Whole 11) ].

(** * Properties *)

(** ** The definitions at work *)

(** The literals [0.1] and [-0.3] are the doubles
    [0x1.999999999999ap-4] and [-0x1.3333333333333p-2], and
    [0.15 + 0.1] is exactly [0.25]. *)
Example literal_one_tenth :
  F64.dec 1 1 = S754_finite false 7205759403792794 (-56).
Proof. reflexivity. Qed.

Example literal_minus_three_tenths :
  F64.dec (-3) 1 = S754_finite true 5404319552844595 (-54).
Proof. reflexivity. Qed.

Example gap_is_a_quarter :
  Fin.gap mask_fins = F64.dec 25 2 /\
  F64.dec 25 2 = S754_finite false 4503599627370496 (-54).
Proof. split; reflexivity. Qed.

Example linspace_five :
  linspace (F64.of_int 0) (F64.of_int 1) 5
  = [F64.of_int 0; F64.dec 25 2; F64.dec 5 1; F64.dec 75 2; F64.of_int 1].
Proof. vm_compute. reflexivity. Qed.

Example meshgrid_ij_two_by_three :
  meshgrid_ij [F64.of_int 1; F64.of_int 2]
              [F64.of_int 7; F64.of_int 8; F64.of_int 9]
  = ([[F64.of_int 1; F64.of_int 1; F64.of_int 1];
      [F64.of_int 2; F64.of_int 2; F64.of_int 2]],
     [[F64.of_int 7; F64.of_int 8; F64.of_int 9];
      [F64.of_int 7; F64.of_int 8; F64.of_int 9]]).
Proof. reflexivity. Qed.

Example transpose_two_by_three :
  transpose [[1; 2; 3]; [4; 5; 6]]%nat = [[1; 4]; [2; 5]; [3; 6]]%nat.
Proof. reflexivity. Qed.

Example setitem_mask_sample :
  setitem_mask [[F64.of_int 1; F64.of_int 2]] [[true; false]] F64.nan
  = Some [[F64.nan; F64.of_int 2]] /\
  setitem_mask [[F64.of_int 1; F64.of_int 2]] [[true]] F64.nan = None.
Proof. split; reflexivity. Qed.

(** ** Cells of elementwise operations *)

Section Cells.
Context {A B C : Type}.

Lemma cell_map2d (f : A -> B) (a : list (list A)) r c :
  cell (map2d f a) r c = f <$> cell a r c.
Proof.
  unfold cell, map2d. rewrite list_lookup_fmap.
  destruct (a !! r) as [row|]; simpl; [|done].
  by rewrite list_lookup_fmap.
Qed.

Lemma cell_zip2d (f : A -> B -> C) (a : list (list A)) (b : list (list B)) r c :
  cell (zip2d f a b) r c = (x ← cell a r c; y ← cell b r c; Some (f x y)).
Proof.
  unfold cell, zip2d. rewrite lookup_zip_with.
  destruct (a !! r) as [ra|]; simpl; [|done].
  destruct (b !! r) as [rb|]; simpl.
  - by rewrite lookup_zip_with.
  - by destruct (ra !! c).
Qed.

End Cells.

(** ** The fin mask, cell by cell *)

Lemma cell_fin_band fs xi yi j r c x y :
  cell xi r c = Some x -> cell yi r c = Some y ->
  cell (fin_band fs xi yi j) r c = Some (in_finb fs x y j).
Proof.
  intros Hx Hy. unfold fin_band, and2d, ge_scalar, le_scalar.
  rewrite !cell_zip2d, !cell_map2d, Hx, Hy. reflexivity.
Qed.

Lemma cell_mask_loop fs xi yi js : forall mask r c x y b,
  cell xi r c = Some x -> cell yi r c = Some y -> cell mask r c = Some b ->
  cell (foldl (fun mask j => or2d mask (fin_band fs xi yi j)) mask js) r c
  = Some (b || existsb (in_finb fs x y) js).
Proof.
  induction js as [|j js IH]; intros mask r c x y b Hx Hy Hb; simpl.
  - rewrite orb_false_r. exact Hb.
  - rewrite (IH _ r c x y (b || in_finb fs x y j) Hx Hy).
    + by rewrite orb_assoc.
    + unfold or2d. rewrite cell_zip2d, Hb. simpl.
      by rewrite (cell_fin_band fs xi yi j r c x y Hx Hy).
Qed.

Lemma cell_fin_mask fs xi yi r c x y :
  cell xi r c = Some x -> cell yi r c = Some y ->
  cell (fin_mask fs xi yi) r c
  = Some (existsb (in_finb fs x y) (seq 0 (Fin.nr_fins fs))).
Proof.
  intros Hx Hy. unfold fin_mask.
  rewrite (cell_mask_loop fs xi yi _ _ r c x y false Hx Hy); [done|].
  unfold zeros_like_bool. by rewrite cell_map2d, Hx.
Qed.

Lemma in_finb_spec fs x y j : in_finb fs x y j = true <-> in_fin fs j x y.
Proof.
  unfold in_finb, in_fin, F64.le, F64.geb, F64.leb.
  rewrite !andb_true_iff. tauto.
Qed.

Lemma existsb_in_fin fs x y n :
  existsb (in_finb fs x y) (seq 0 n) = true
  <-> exists j, (j < n)%nat /\ in_fin fs j x y.
Proof.
  rewrite existsb_exists. split.
  - intros (j & Hj & Hin). exists j. apply in_seq in Hj.
    split; [lia|]. by apply in_finb_spec.
  - intros (j & Hj & Hin). exists j. split.
    + apply in_seq. lia.
    + by apply in_finb_spec.
Qed.

(** C3. For every fin specification and every grid cell with
    coordinates [(x, y)], the mask is true at the cell exactly when some
    fin index [j < nr_fins] has, with [fin_y = start_y + j * gap],
    [heat_sink_x <= x <= heat_sink_x + length] and
    [fin_y <= y <= fin_y + thickness]: closed rectangles, joined by
    logical or.  Sums, products and comparisons are those of binary64,
    as the source computes them. *)
Theorem fin_mask_closed_rectangles (fs : Fin.t) (xi yi : array2)
    (r c : nat) (x y : float) :
  cell xi r c = Some x -> cell yi r c = Some y ->
  exists b : bool,
    cell (fin_mask fs xi yi) r c = Some b /\
    (b = true <->
     exists j : nat, (j < Fin.nr_fins fs)%nat /\
       let fin_y :=
         F64.add (Fin.heat_sink_y_start fs)
                 (F64.mul (F64.of_int (Z.of_nat j)) (Fin.gap fs)) in
       F64.le (Fin.heat_sink_x fs) x /\
       F64.le x (F64.add (Fin.heat_sink_x fs) (Fin.length fs)) /\
       F64.le fin_y y /\
       F64.le y (F64.add fin_y (Fin.fin_thickness fs))).
Proof.
  intros Hx Hy. eexists. split.
  - by apply cell_fin_mask.
  - apply existsb_in_fin.
Qed.

Lemma fin_mask_closed_rectangles_witness :
  exists b : bool,
    cell (fin_mask mask_fins [[F64.dec (-5) 1]] [[F64.dec (-25) 2]]) 0 0
    = Some b /\
    (b = true <->
     exists j : nat, (j < 3)%nat /\
       let fin_y :=
         F64.add (F64.dec (-3) 1)
                 (F64.mul (F64.of_int (Z.of_nat j))
                          (F64.add (F64.dec 15 2) (F64.dec 1 1))) in
       F64.le (F64.of_int (-1)) (F64.dec (-5) 1) /\
       F64.le (F64.dec (-5) 1) (F64.add (F64.of_int (-1)) (F64.dec 10 1)) /\
       F64.le fin_y (F64.dec (-25) 2) /\
       F64.le (F64.dec (-25) 2) (F64.add fin_y (F64.dec 1 1))).
Proof.
  apply (fin_mask_closed_rectangles mask_fins
           [[F64.dec (-5) 1]] [[F64.dec (-25) 2]] 0 0
           (F64.dec (-5) 1) (F64.dec (-25) 2)); reflexivity.
Defined.

(** C7. The mask is monotone in the number of fins: with all other
    constants fixed and [n1 <= n2], a cell that is true with [n1] fins
    is true with [n2] fins. *)
Theorem fin_mask_monotone (fs : Fin.t) (n1 n2 : nat) (xi yi : array2)
    (r c : nat) (x y : float) :
  (n1 <= n2)%nat ->
  cell xi r c = Some x -> cell yi r c = Some y ->
  cell (fin_mask (Fin.with_nr_fins n1 fs) xi yi) r c = Some true ->
  cell (fin_mask (Fin.with_nr_fins n2 fs) xi yi) r c = Some true.
Proof.
  intros Hn Hx Hy.
  rewrite !(cell_fin_mask _ xi yi r c x y Hx Hy). simpl.
  intros [= H1]. f_equal.
  apply existsb_exists in H1 as (j & Hj & Hb).
  apply existsb_exists. exists j. split; [|exact Hb].
  apply in_seq in Hj. apply in_seq. lia.
Qed.

Lemma fin_mask_monotone_witness :
  cell (fin_mask (Fin.with_nr_fins 3 mask_fins)
          [[F64.dec (-5) 1]] [[F64.dec (-25) 2]]) 0 0 = Some true.
Proof.
  apply (fin_mask_monotone mask_fins 1 3
           [[F64.dec (-5) 1]] [[F64.dec (-25) 2]] 0 0
           (F64.dec (-5) 1) (F64.dec (-25) 2)).
  - lia.
  - reflexivity.
  - reflexivity.
  - vm_compute. reflexivity.
Defined.

(** ** The constants of the source *)

(** The three fins, as binary64 intervals of [y]: the second one
    straddles [y = 0]. *)
Example fin_y_values :
  map (fin_y mask_fins) [0; 1; 2]%nat
  = [ F64.dec (-3) 1;
      F64.add (F64.dec (-3) 1) (F64.dec 25 2);
      F64.add (F64.dec (-3) 1) (F64.dec 5 1) ].
Proof. vm_compute. reflexivity. Qed.

Lemma heat_sink_mask_cell xi yi r c x y :
  cell xi r c = Some x -> cell yi r c = Some y ->
  cell (heat_sink_mask xi yi) r c
  = Some (existsb (in_finb mask_fins x y) [0; 1; 2]%nat).
Proof. intros Hx Hy. unfold heat_sink_mask. by erewrite cell_fin_mask. Qed.

(** C1, as stated, fails: the cell at [(-0.5, 0.0)] is masked true, not
    false. *)
Lemma heat_sink_mask_origin_cell_not_false :
  ~ (cell (heat_sink_mask [[F64.dec (-5) 1]] [[F64.dec (-25) 2]]) 0 0
       = Some true /\
     cell (heat_sink_mask [[F64.dec (-5) 1]] [[F64.zero]]) 0 0
       = Some false).
Proof. vm_compute. intros [_ H]. discriminate H. Qed.

(** C1, amended. With the constants of [heat_sink_mask], a grid cell at
    [(-0.5, -0.25)] is masked true, and a grid cell at [(-0.5, 0.0)] is
    masked true as well: it lies in the second fin, whose [y] range is
    [-0.05 .. 0.05].  A cell between the first two fins, at
    [(-0.5, -0.1)], is masked false. *)
Theorem heat_sink_mask_sample_cells (xi yi : array2) (r c : nat) :
  cell xi r c = Some (F64.dec (-5) 1) ->
  (cell yi r c = Some (F64.dec (-25) 2) ->
   cell (heat_sink_mask xi yi) r c = Some true) /\
  (cell yi r c = Some F64.zero ->
   cell (heat_sink_mask xi yi) r c = Some true) /\
  (cell yi r c = Some (F64.dec (-1) 1) ->
   cell (heat_sink_mask xi yi) r c = Some false).
Proof.
  intros Hx. repeat split; intros Hy;
    rewrite (heat_sink_mask_cell xi yi r c _ _ Hx Hy);
    vm_compute; reflexivity.
Qed.

Lemma heat_sink_mask_sample_cells_witness :
  cell (heat_sink_mask
          [[F64.dec (-5) 1; F64.dec (-5) 1; F64.dec (-5) 1]]
          [[F64.dec (-25) 2; F64.zero; F64.dec (-1) 1]]) 0 1 = Some true.
Proof.
  apply (heat_sink_mask_sample_cells
           [[F64.dec (-5) 1; F64.dec (-5) 1; F64.dec (-5) 1]]
           [[F64.dec (-25) 2; F64.zero; F64.dec (-1) 1]] 0 1);
    reflexivity.
Defined.

(** ** The two copies of the fin geometry *)

Lemma in_fin_rectangles fs x y :
  Exists (fun R => in_rectangle R x y) (fin_rectangles fs)
  <-> exists j, (j < Fin.nr_fins fs)%nat /\ in_fin fs j x y.
Proof.
  unfold fin_rectangles. rewrite Exists_exists. split.
  - intros (R & HR & Hin). apply list_elem_of_fmap in HR as (j & -> & Hj).
    exists j. split; [|exact Hin].
    apply elem_of_seq in Hj. lia.
  - intros (j & Hj & Hin).
    exists (mkRectangle (Fin.heat_sink_x fs, fin_y fs j)
              (F64.add (Fin.heat_sink_x fs) (Fin.length fs),
               F64.add (fin_y fs j) (Fin.fin_thickness fs))).
    split; [|exact Hin].
    apply list_elem_of_fmap. exists j. split; [done|].
    apply elem_of_seq. lia.
Qed.

(** C8. The rectangles tested by [heat_sink_mask] are exactly the fin
    rectangles that [run] builds for the geometry, corner for corner in
    binary64, and so a grid cell is masked exactly when its point lies
    in one of the rectangles of [run]. *)
Theorem mask_rectangles_are_run_rectangles :
  fin_rectangles mask_fins = run_heat_sink /\
  forall (xi yi : array2) (r c : nat) (x y : float),
    cell xi r c = Some x -> cell yi r c = Some y ->
    (cell (heat_sink_mask xi yi) r c = Some true
     <-> Exists (fun R => in_rectangle R x y) run_heat_sink).
Proof.
  assert (Heq : fin_rectangles mask_fins = run_heat_sink)
    by (vm_compute; reflexivity).
  split; [exact Heq|].
  intros xi yi r c x y Hx Hy. rewrite <- Heq, in_fin_rectangles.
  unfold heat_sink_mask.
  rewrite (cell_fin_mask mask_fins xi yi r c x y Hx Hy).
  etransitivity; [|apply existsb_in_fin].
  split; [intros [= H]|intros H; f_equal]; exact H.
Qed.

Lemma mask_rectangles_are_run_rectangles_witness :
  cell (heat_sink_mask [[F64.dec (-5) 1]] [[F64.dec 25 2]]) 0 0 = Some true
  <-> Exists (fun R => in_rectangle R (F64.dec (-5) 1) (F64.dec 25 2))
        run_heat_sink.
Proof.
  apply (proj2 mask_rectangles_are_run_rectangles
           [[F64.dec (-5) 1]] [[F64.dec 25 2]] 0 0); reflexivity.
Defined.

(** ** Shapes *)

Lemma has_shape_lengths {T} rows cols (a : list (list T)) :
  has_shape rows cols a <-> map length a = replicate rows cols.
Proof.
  unfold has_shape. split.
  - intros [<- Hc]. induction Hc as [|row a Hrow Hc IH]; simpl; [done|].
    by rewrite Hrow, IH.
  - revert rows. induction a as [|row a IH]; intros [|rows]; simpl;
      try done.
    intros [= Hrow Ha]. destruct (IH _ Ha) as [Hl Hf].
    split; [by rewrite Hl|]. by constructor.
Qed.

Section Shapes.
Context {A B C : Type}.

Lemma has_shape_map2d (f : A -> B) rows cols (a : list (list A)) :
  has_shape rows cols a -> has_shape rows cols (map2d f a).
Proof.
  intros [Hr Hc]. split.
  - unfold map2d. by rewrite length_map.
  - unfold map2d. apply Forall_fmap. eapply Forall_impl; [exact Hc|].
    intros row Hrow. simpl. by rewrite length_map.
Qed.

Lemma has_shape_zip2d (f : A -> B -> C) rows cols
    (a : list (list A)) (b : list (list B)) :
  has_shape rows cols a -> has_shape rows cols b ->
  has_shape rows cols (zip2d f a b).
Proof.
  intros [Hra Hca] [Hrb Hcb]. split.
  - unfold zip2d. rewrite length_zip_with. lia.
  - unfold zip2d. clear Hra Hrb. revert b Hcb.
    induction Hca as [|ra a Hra Hca IH]; intros [|rb b] Hcb; simpl;
      try constructor.
    + inversion Hcb; subst. rewrite length_zip_with. lia.
    + inversion Hcb; subst. by apply IH.
Qed.

Lemma same_shape_has_shape rows cols (a : list (list A)) (b : list (list B)) :
  same_shape a b = true -> has_shape rows cols b -> has_shape rows cols a.
Proof.
  unfold same_shape. intros H%bool_decide_eq_true Hb.
  apply has_shape_lengths. apply has_shape_lengths in Hb. congruence.
Qed.

Lemma has_shape_same_shape rows cols (a : list (list A)) (b : list (list B)) :
  has_shape rows cols a -> has_shape rows cols b -> same_shape a b = true.
Proof.
  intros Ha%has_shape_lengths Hb%has_shape_lengths.
  unfold same_shape. apply bool_decide_eq_true. congruence.
Qed.

Lemma has_shape_cell rows cols (a : list (list A)) r c :
  has_shape rows cols a -> (r < rows)%nat -> (c < cols)%nat ->
  is_Some (cell a r c).
Proof.
  intros [Hr Hc] Hlr Hlc. unfold cell.
  destruct (lookup_lt_is_Some_2 a r) as [row Hrow]; [lia|].
  rewrite Hrow. simpl. apply lookup_lt_is_Some_2.
  rewrite Forall_lookup in Hc. by rewrite (Hc _ _ Hrow).
Qed.

End Shapes.

Lemma length_arange n : length (arange n) = n.
Proof. unfold arange. by rewrite length_map, length_seq. Qed.

Lemma length_linspace start stop num :
  length (linspace start stop num) = num.
Proof.
  unfold linspace.
  repeat case_bool_decide; repeat case_match;
    rewrite ?length_insert, !length_map; apply length_arange.
Qed.

Lemma has_shape_meshgrid_ij (a b : array1) :
  has_shape (length a) (length b) (fst (meshgrid_ij a b)) /\
  has_shape (length a) (length b) (snd (meshgrid_ij a b)).
Proof.
  unfold meshgrid_ij, has_shape. simpl. rewrite !length_map.
  repeat split; try done; apply Forall_fmap, Forall_forall; intros; simpl;
    by rewrite ?length_map.
Qed.

Lemma has_shape_grid_of extent :
  has_shape 100 100 (fst (grid_of extent)) /\
  has_shape 100 100 (snd (grid_of extent)).
Proof.
  destruct extent as [[[e0 e1] e2] e3]. unfold grid_of.
  pose proof (has_shape_meshgrid_ij (linspace e0 e1 100) (linspace e2 e3 100))
    as H.
  by rewrite !length_linspace in H.
Qed.

Lemma has_shape_fin_mask fs rows cols (xi yi : array2) :
  has_shape rows cols xi -> has_shape rows cols yi ->
  has_shape rows cols (fin_mask fs xi yi).
Proof.
  intros Hx Hy. unfold fin_mask.
  assert (H0 : has_shape rows cols (zeros_like_bool xi))
    by by apply has_shape_map2d.
  revert H0. generalize (zeros_like_bool xi) as mask.
  induction (seq 0 (Fin.nr_fins fs)) as [|j js IH]; intros mask Hm; simpl;
    [done|].
  apply IH. unfold or2d, fin_band, and2d, ge_scalar, le_scalar.
  repeat (apply has_shape_zip2d || apply has_shape_map2d); done.
Qed.

Lemma has_shape_heat_sink_mask extent :
  has_shape 100 100
    (heat_sink_mask (fst (grid_of extent)) (snd (grid_of extent))).
Proof.
  destruct (has_shape_grid_of extent).
  by apply has_shape_fin_mask.
Qed.

Lemma has_shape_setitem_mask rows cols a mask v a' :
  setitem_mask a mask v = Some a' -> has_shape rows cols mask ->
  has_shape rows cols a'.
Proof.
  unfold setitem_mask. destruct (same_shape a mask) eqn:Hs; [|done].
  intros [= <-] Hm. apply has_shape_zip2d; [|done].
  by eapply same_shape_has_shape.
Qed.

Lemma same_shape_map2d {A B C} (f : A -> B) (a : list (list A))
    (b : list (list C)) :
  same_shape (map2d f a) b = same_shape a b.
Proof.
  unfold same_shape, map2d.
  assert (H : map length (map (map f) a) = map length a).
  { induction a as [|row a IH]; simpl; [done|]. by rewrite length_map, IH. }
  by rewrite H.
Qed.

(** ** The pass-through step *)

Lemma Forall_cells {A} (P : A -> Prop) (a : list (list A)) :
  (forall r c v, cell a r c = Some v -> P v) <-> Forall (Forall P) a.
Proof.
  rewrite Forall_lookup. split.
  - intros H r row Hrow. apply Forall_lookup. intros c v Hv.
    apply (H r c). unfold cell. by rewrite Hrow.
  - intros H r c v. unfold cell. destruct (a !! r) as [row|] eqn:Hrow; [|done].
    simpl. intros Hv. specialize (H r row Hrow).
    rewrite Forall_lookup in H. by apply (H c).
Qed.

Lemma nan_to_num_entry_no_inf nan posinf neginf v :
  F64.is_inf v = false ->
  nan_to_num_entry nan posinf neginf v = if F64.is_nan v then nan else v.
Proof. by destruct v as [| | |]. Qed.

(** C5, as stated, fails: the step is not the identity on an array that
    holds an infinity, which it replaces by the largest finite number. *)
Lemma nan_pass_through_changes_infinity :
  nan_pass_through [[F64.infinity]] <> nan_pass_through_spec [[F64.infinity]].
Proof. vm_compute. discriminate. Qed.

(** C5, amended. The pass-through step [np.nan_to_num(val, nan=np.nan)]
    is the identity on every array that holds no infinity: every NaN
    remains NaN (it is not zeroed) and every finite value is unchanged.
    An infinite entry is replaced by the finite number of largest
    magnitude and the same sign. *)
Theorem nan_pass_through_identity_without_infinity (val : array2) :
  (forall r c v, cell val r c = Some v ->
     cell (nan_pass_through val) r c =
     Some (if F64.is_nan v then F64.nan
           else if F64.is_finite v then v
           else if F64.ltb v F64.zero then F64.opp F64.max_float
           else F64.max_float)) /\
  ((forall r c v, cell val r c = Some v -> F64.is_inf v = false) ->
   nan_pass_through val = nan_pass_through_spec val).
Proof.
  split.
  - intros r c v Hv. unfold nan_pass_through, nan_to_num.
    rewrite cell_map2d, Hv. simpl. f_equal. by destruct v as [[]|[]| |].
  - intros H%Forall_cells. unfold nan_pass_through, nan_pass_through_spec,
      nan_to_num, map2d.
    induction H as [|row a Hrow Ha IH]; simpl; [done|].
    rewrite IH. f_equal.
    induction Hrow as [|v row Hv Hrow IHrow]; simpl; [done|].
    rewrite IHrow. f_equal. by destruct v as [| | |].
Qed.

Lemma nan_pass_through_identity_without_infinity_witness :
  nan_pass_through [[F64.nan; F64.dec 15 1]; [F64.zero; F64.of_int (-2)]]
  = nan_pass_through_spec
      [[F64.nan; F64.dec 15 1]; [F64.zero; F64.of_int (-2)]].
Proof.
  apply (nan_pass_through_identity_without_infinity
           [[F64.nan; F64.dec 15 1]; [F64.zero; F64.of_int (-2)]]).
  intros [|[|r]] [|[|c]] v; vm_compute; intros H;
    try discriminate H; injection H as <-; reflexivity.
Defined.

(** ** What [interpolate_output] returns *)

Section InterpolationProperties.

Variable griddata :
  array1 -> array1 -> array1 -> array2 -> array2 -> option array2.

Lemma mapM_then_mapM {A B C D} (f : A -> option B) (h : B -> C)
    (g : C -> option D) (l : list A) :
  (k ← mapM f l; mapM g (map h k)) = mapM (fun v => a ← f v; g (h a)) l.
Proof.
  induction l as [|v l IH]; simpl; [done|].
  rewrite <- IH. destruct (f v) as [a|]; simpl; [|done].
  destruct (mapM f l) as [k|]; simpl.
  - by destruct (g (h a)).
  - by destruct (g (h a)).
Qed.

Lemma interpolate_output_unfold x y values extent :
  interpolate_output griddata x y values extent
  = mapM (interpolate_one griddata x y (fst (grid_of extent))
            (snd (grid_of extent))
            (heat_sink_mask (fst (grid_of extent)) (snd (grid_of extent))))
         values.
Proof.
  unfold interpolate_output, interpolate_one.
  destruct (grid_of extent) as [xi yi]. simpl.
  apply mapM_then_mapM.
Qed.

(** C10. [interpolate_output] treats each value array on its own, with
    one grid and one mask that depend on the extent only: the result is
    that of mapping, over the list in order, "interpolate, pass through,
    overwrite the masked cells with NaN".  When it returns, the list has
    one grid per input array, at the same position, and a cell of a
    returned grid is NaN where the mask is true and the passed-through
    interpolated value elsewhere. *)
Theorem interpolate_output_per_array (x y : array1) (values : list array1)
    (extent : extent_t) :
  let xi := fst (grid_of extent) in
  let yi := snd (grid_of extent) in
  let mask := heat_sink_mask xi yi in
  interpolate_output griddata x y values extent
  = mapM (interpolate_one griddata x y xi yi mask) values /\
  forall out, interpolate_output griddata x y values extent = Some out ->
    length out = length values /\
    forall i value, values !! i = Some value ->
      exists val grid,
        griddata x y value xi yi = Some val /\
        out !! i = Some grid /\
        forall r c,
          cell grid r c =
          (m ← cell mask r c; v ← cell (nan_pass_through val) r c;
           Some (if m : bool then F64.nan else v)).
Proof.
  intros xi yi mask. split; [apply interpolate_output_unfold|].
  intros out. rewrite interpolate_output_unfold. fold xi yi mask.
  intros Hout. split; [symmetry; by eapply length_mapM|].
  intros i value Hv. apply mapM_Some_1 in Hout.
  destruct (Forall2_lookup_l _ _ _ _ _ Hout Hv) as (grid & Hg & Hone).
  unfold interpolate_one in Hone.
  destruct (griddata x y value xi yi) as [val|]; simpl in Hone; [|done].
  exists val, grid. split; [done|]. split; [done|].
  intros r c. unfold setitem_mask in Hone.
  destruct (same_shape _ _); [|done]. injection Hone as <-.
  rewrite cell_zip2d.
  destruct (cell (nan_pass_through val) r c), (cell mask r c); done.
Qed.

Lemma interpolate_one_shape x y xi yi mask value grid :
  interpolate_one griddata x y xi yi mask value = Some grid ->
  has_shape 100 100 mask -> has_shape 100 100 grid.
Proof.
  unfold interpolate_one.
  destruct (griddata x y value xi yi) as [val|]; simpl; [|done].
  apply has_shape_setitem_mask.
Qed.

(** Whatever the interpolation routine returns, a grid that
    [interpolate_output] returns is 100 by 100: the masked assignment
    raises on any other shape. *)
Lemma interpolate_output_shape_if_returns x y values extent out :
  interpolate_output griddata x y values extent = Some out ->
  Forall (has_shape 100 100) out.
Proof.
  rewrite interpolate_output_unfold. intros H%mapM_Some_1.
  induction H as [|value grid values out Hone _ IH]; constructor; [|done].
  eapply interpolate_one_shape; [exact Hone|].
  apply has_shape_heat_sink_mask.
Qed.

(** C6. For a valid scattered input, that is one on which the
    interpolation routine succeeds for each value array and, as SciPy
    documents, returns an array of the shape of the query grid,
    [interpolate_output] returns, and every grid it returns has shape
    100 by 100. *)
Theorem interpolate_output_shape (x y : array1) (values : list array1)
    (extent : extent_t) :
  (forall value, value ∈ values ->
     exists val,
       griddata x y value (fst (grid_of extent)) (snd (grid_of extent))
       = Some val /\
       same_shape val (fst (grid_of extent)) = true) ->
  exists out,
    interpolate_output griddata x y values extent = Some out /\
    length out = length values /\
    Forall (has_shape 100 100) out.
Proof.
  intros Hvalid.
  assert (Hsome : is_Some (interpolate_output griddata x y values extent)).
  { rewrite interpolate_output_unfold. apply mapM_is_Some_2, Forall_forall.
    intros value Hin. destruct (Hvalid value Hin) as (val & Hval & Hshape).
    simpl. unfold interpolate_one. rewrite Hval. simpl.
    unfold setitem_mask, nan_pass_through, nan_to_num.
    rewrite same_shape_map2d.
    destruct (has_shape_grid_of extent) as [Hxi _].
    rewrite (has_shape_same_shape 100 100); [done| |].
    - by eapply same_shape_has_shape.
    - apply has_shape_heat_sink_mask. }
  destruct Hsome as [out Hout]. exists out. split; [done|]. split.
  - rewrite interpolate_output_unfold in Hout. symmetry.
    by eapply length_mapM.
  - by eapply interpolate_output_shape_if_returns.
Qed.

End InterpolationProperties.


Lemma interpolate_output_shape_witness :
  exists out,
    interpolate_output constant_griddata
      [F64.of_int 0; F64.of_int 1; F64.of_int 0]
      [F64.of_int 0; F64.of_int 0; F64.of_int 1]
      [[F64.of_int 1; F64.of_int 2; F64.of_int 3]]
      (F64.of_int 0, F64.of_int 1, F64.of_int 0, F64.of_int 1) = Some out /\
    length out = 1%nat /\
    Forall (has_shape 100 100) out.
Proof.
  apply (interpolate_output_shape constant_griddata
           [F64.of_int 0; F64.of_int 1; F64.of_int 0]
           [F64.of_int 0; F64.of_int 0; F64.of_int 1]
           [[F64.of_int 1; F64.of_int 2; F64.of_int 3]]
           (F64.of_int 0, F64.of_int 1, F64.of_int 0, F64.of_int 1)).
  intros value Hin. apply list_elem_of_singleton in Hin as ->.
  exists (map2d (fun _ => F64.of_int 1)
            (fst (grid_of (F64.of_int 0, F64.of_int 1,
                           F64.of_int 0, F64.of_int 1)))).
  split; [reflexivity|]. vm_compute. reflexivity.
Defined.

Lemma interpolate_output_per_array_witness :
  exists out,
    interpolate_output constant_griddata
      [F64.of_int 0; F64.of_int 1; F64.of_int 0]
      [F64.of_int 0; F64.of_int 0; F64.of_int 1]
      [[F64.of_int 1; F64.of_int 2; F64.of_int 3];
       [F64.of_int 4; F64.of_int 5; F64.of_int 6]]
      (F64.of_int (-1), F64.of_int 0, F64.dec (-3) 1, F64.dec 3 1)
    = Some out /\
    length out = 2%nat.
Proof.
  assert (Hsome : is_Some
    (interpolate_output constant_griddata
      [F64.of_int 0; F64.of_int 1; F64.of_int 0]
      [F64.of_int 0; F64.of_int 0; F64.of_int 1]
      [[F64.of_int 1; F64.of_int 2; F64.of_int 3];
       [F64.of_int 4; F64.of_int 5; F64.of_int 6]]
      (F64.of_int (-1), F64.of_int 0, F64.dec (-3) 1, F64.dec 3 1)))
    by (apply (bool_decide_unpack _); vm_compute; exact I).
  destruct Hsome as [out Hout]. exists out. split; [exact Hout|].
  apply (proj2 (interpolate_output_per_array constant_griddata
      [F64.of_int 0; F64.of_int 1; F64.of_int 0]
      [F64.of_int 0; F64.of_int 0; F64.of_int 1]
      [[F64.of_int 1; F64.of_int 2; F64.of_int 3];
       [F64.of_int 4; F64.of_int 5; F64.of_int 6]]
      (F64.of_int (-1), F64.of_int 0, F64.dec (-3) 1, F64.dec 3 1))
      out Hout).
Defined.

(** ** Transposition *)

Section Transpose.
Context {A : Type}.

Lemma length_transpose_rows n (a : list (list A)) :
  Forall (fun row => length row = n) a ->
  length (foldr (zip_with cons) (replicate n []) a) = n.
Proof.
  induction 1 as [|row a Hrow _ IH]; simpl.
  - by rewrite length_replicate.
  - rewrite length_zip_with, IH, Hrow. lia.
Qed.

Lemma cell_transpose_rows n (a : list (list A)) :
  Forall (fun row => length row = n) a ->
  forall c r,
    cell (foldr (zip_with cons) (replicate n []) a) c r = cell a r c.
Proof.
  induction 1 as [|row a Hrow Ha IH]; intros c r.
  - simpl. unfold cell. rewrite lookup_nil. simpl.
    destruct (replicate n [] !! c) as [l|] eqn:Hl; [|done].
    apply lookup_replicate in Hl as [-> _]. done.
  - simpl. unfold cell at 1. rewrite lookup_zip_with.
    pose proof (length_transpose_rows n a Ha) as Hlen.
    destruct (row !! c) as [v|] eqn:Hv; simpl.
    + assert (Hc : (c < n)%nat) by (rewrite <- Hrow; by eapply lookup_lt_Some).
      destruct (lookup_lt_is_Some_2
                  (foldr (zip_with cons) (replicate n []) a) c) as [t Ht];
        [lia|].
      rewrite Ht. simpl. destruct r as [|r]; simpl.
      * unfold cell. simpl. by rewrite Hv.
      * specialize (IH c r). unfold cell in IH. rewrite Ht in IH.
        simpl in IH. rewrite IH. unfold cell. done.
    + destruct r as [|r]; unfold cell; simpl; [by rewrite Hv|].
      destruct (a !! r) as [row'|] eqn:Hrow'; simpl; [|done].
      symmetry. apply lookup_ge_None.
      rewrite Forall_lookup in Ha. rewrite (Ha _ _ Hrow'), <- Hrow.
      by apply lookup_ge_None.
Qed.

Lemma cell_transpose rows cols (a : list (list A)) c r :
  has_shape rows cols a -> cell (transpose a) c r = cell a r c.
Proof.
  intros [Hr Hc]. unfold transpose.
  destruct a as [|row a]; [by destruct c|].
  apply cell_transpose_rows. simpl.
  inversion Hc as [|? ? Hrow Ha]; subst. by constructor.
Qed.

End Transpose.

(** ** The difference panels *)

Lemma sub_nan t p :
  F64.is_nan t = true \/ F64.is_nan p = true -> F64.sub t p = F64.nan.
Proof. intros [H|H]; destruct t as [| | |], p as [| | |]; done. Qed.

Lemma draw_panel_Some data i P :
  draw_panel data i = Some P ->
  exists d, data !! i = Some d /\ image P = transpose d /\
            titles !! i = Some (title P).
Proof.
  unfold draw_panel. intros H.
  destruct (variables !! i) as [var|]; simpl in H; [|done].
  destruct (data !! i) as [d|]; simpl in H; [|done].
  destruct (titles !! i) as [t|]; simpl in H; [|done].
  exists d. case_bool_decide.
  - destruct (colorbar_limits !! var); simpl in H; [|done].
    by injection H as <-.
  - by injection H as <-.
Qed.

Lemma draw_panels_lookup data panels i :
  mapM (draw_panel data) (seq 0 15) = Some panels -> (i < 15)%nat ->
  exists P d, panels !! i = Some P /\ data !! i = Some d /\
              image P = transpose d /\ titles !! i = Some (title P).
Proof.
  intros H%mapM_Some_1 Hi.
  assert (Hseq : seq 0 15 !! i = Some i) by (by apply lookup_seq).
  destruct (Forall2_lookup_l _ _ _ _ _ H Hseq) as (P & HP & Hdraw).
  apply draw_panel_Some in Hdraw as (d & Hd & Himg & Ht).
  by exists P, d.
Qed.

Lemma cell_difference (T P : array2) r c :
  has_shape 100 100 T -> has_shape 100 100 P ->
  (r < 100)%nat -> (c < 100)%nat ->
  exists t p,
    cell (transpose T) r c = Some t /\
    cell (transpose P) r c = Some p /\
    cell (transpose (sub2d T P)) r c = Some (F64.sub t p) /\
    (F64.is_nan t = true \/ F64.is_nan p = true -> F64.sub t p = F64.nan).
Proof.
  intros HT HP Hr Hc.
  assert (HD : has_shape 100 100 (sub2d T P)) by by apply has_shape_zip2d.
  rewrite (cell_transpose 100 100 T), (cell_transpose 100 100 P),
    (cell_transpose 100 100 (sub2d T P)) by done.
  destruct (has_shape_cell 100 100 T c r HT Hc Hr) as [t Ht].
  destruct (has_shape_cell 100 100 P c r HP Hc Hr) as [p Hp].
  exists t, p. unfold sub2d. rewrite cell_zip2d, Ht, Hp.
  repeat split; try done. apply sub_nan.
Qed.

Ltac panel_at Hps i P Himg HP Ht :=
  let d := fresh "d" in
  let Hd := fresh "Hd" in
  destruct (draw_panels_lookup _ _ i Hps ltac:(lia))
    as (P & d & HP & Hd & Himg & Ht);
  simpl in Hd; injection Hd as <-;
  simpl in Ht; injection Ht as Ht.

Ltac quantity_case Hps i :=
  let P0 := fresh "P" in let P1 := fresh "P" in let P2 := fresh "P" in
  let H0 := fresh "Himg" in let H1 := fresh "Himg" in
  let H2 := fresh "Himg" in
  let L0 := fresh "HP" in let L1 := fresh "HP" in let L2 := fresh "HP" in
  let T0 := fresh "Ht" in let T1 := fresh "Ht" in let T2 := fresh "Ht" in
  panel_at Hps i P0 H0 L0 T0;
  panel_at Hps (S i) P1 H1 L1 T1;
  panel_at Hps (S (S i)) P2 H2 L2 T2;
  eexists _, _, P0, P1, P2;
  split; [reflexivity|]; split; [reflexivity|];
  split; [exact L0|]; split; [exact L1|]; split; [exact L2|];
  split; [by rewrite <- T0|]; split; [by rewrite <- T1|];
  split; [by rewrite <- T2|];
  split; [exact H0|]; split; [exact H1|];
  intros ? ? ? ?; rewrite H0, H1, H2;
  apply cell_difference; assumption.

(** C2, as stated, fails: where the reference is 3 and the prediction
    is 1, the difference array holds [3 - 1], not [1 - 3]. *)
Lemma difference_is_not_predicted_minus_reference :
  let reference := [[F64.of_int 3]] in
  let predicted := [[F64.of_int 1]] in
  ~ (forall data diff,
       panel_data [reference; reference; reference; reference; reference;
                   predicted; predicted; predicted; predicted; predicted]
       = Some data ->
       data !! 2%nat = Some diff ->
       cell diff 0 0 = Some (F64.sub (F64.of_int 1) (F64.of_int 3))).
Proof.
  intros reference predicted H.
  specialize (H _ _ eq_refl eq_refl). vm_compute in H. discriminate H.
Qed.

Section CallProperties.

Variable griddata :
  array1 -> array1 -> array1 -> array2 -> array2 -> option array2.

(** C2, amended. For each of the five quantities (p, u, v, nu, c, in
    this order) the call draws three panels: the interpolated prediction
    ("Modulus"), the interpolated reference ("OpenFOAM"), and their
    difference.  At every grid cell the value in the difference panel
    is the reference value minus the predicted value at that cell
    (binary64 subtraction), and it is NaN wherever either of the two is
    NaN. *)
Theorem difference_panel_values (invar true_outvar pred_outvar : fields)
    (res : list (Figure * string)) :
  call griddata invar true_outvar pred_outvar = Some res ->
  exists x y extent values interpolated fig,
    call_inputs invar true_outvar pred_outvar = Some (x, y, extent, values) /\
    interpolate_output griddata x y values extent = Some interpolated /\
    res = [(fig, "custom_plot")] /\
    forall k q, quantities !! k = Some q ->
      exists reference predicted pred_panel ref_panel diff_panel,
        interpolated !! k = Some reference /\
        interpolated !! (5 + k)%nat = Some predicted /\
        panels fig !! (3 * k)%nat = Some pred_panel /\
        panels fig !! (3 * k + 1)%nat = Some ref_panel /\
        panels fig !! (3 * k + 2)%nat = Some diff_panel /\
        title pred_panel = "Modulus: " +:+ q /\
        title ref_panel = "OpenFOAM: " +:+ q /\
        title diff_panel = "Difference: " +:+ q /\
        image pred_panel = transpose predicted /\
        image ref_panel = transpose reference /\
        forall r c, (r < 100)%nat -> (c < 100)%nat ->
          exists t p,
            cell (image ref_panel) r c = Some t /\
            cell (image pred_panel) r c = Some p /\
            cell (image diff_panel) r c = Some (F64.sub t p) /\
            (F64.is_nan t = true \/ F64.is_nan p = true ->
             F64.sub t p = F64.nan).
Proof.
  unfold call. intros H.
  apply bind_Some in H as ([[[x y] extent] values] & Hin & H).
  apply bind_Some in H as (interpolated & Hint & H).
  apply bind_Some in H as (data & Hdata & H).
  apply bind_Some in H as (ps & Hps & H).
  injection H as <-.
  exists x, y, extent, values, interpolated. eexists.
  split; [exact Hin|]. split; [exact Hint|]. split; [reflexivity|]. simpl.
  pose proof (interpolate_output_shape_if_returns _ _ _ _ _ _ Hint) as Hshape.
  unfold panel_data in Hdata.
  do 11 (destruct interpolated as [|? interpolated]; try discriminate Hdata).
  injection Hdata as <-.
  repeat (apply Forall_cons in Hshape as [? Hshape]).
  intros k q Hq.
  destruct k as [|[|[|[|[|k]]]]]; simpl in Hq; [..|done];
    injection Hq as <-.
  - quantity_case Hps 0%nat.
  - quantity_case Hps 3%nat.
  - quantity_case Hps 6%nat.
  - quantity_case Hps 9%nat.
  - quantity_case Hps 12%nat.
Qed.

End CallProperties.

Lemma difference_panel_values_witness :
  exists res fig,
    call constant_griddata sample_invar sample_true_outvar sample_pred_outvar
    = Some res /\
    res = [(fig, "custom_plot")].
Proof.
  assert (Hsome : is_Some
    (call constant_griddata
       sample_invar sample_true_outvar sample_pred_outvar))
    by (apply (bool_decide_unpack _); vm_compute; exact I).
  destruct Hsome as [res Hres]. exists res.
  destruct (difference_panel_values constant_griddata
              sample_invar sample_true_outvar sample_pred_outvar res Hres)
    as (x & y & extent & values & interpolated & fig & _ & _ & Hfig & _).
  exists fig. split; [exact Hres|exact Hfig].
Defined.

(** ** When the call returns *)

Lemma call_inputs_length invar true_outvar pred_outvar x y extent values :
  call_inputs invar true_outvar pred_outvar = Some (x, y, extent, values) ->
  length values = 10%nat.
Proof.
  unfold call_inputs. intros H.
  repeat (apply bind_Some in H as (? & _ & H)).
  by injection H as <- <- <- <-.
Qed.

Lemma draw_panel_is_Some data i :
  length data = 15%nat -> (i < 15)%nat -> is_Some (draw_panel data i).
Proof.
  intros Hlen Hi. unfold draw_panel.
  destruct (lookup_lt_is_Some_2 data i) as [d Hd]; [lia|].
  do 15 (destruct i as [|i]; [rewrite Hd; vm_compute; eauto|]). lia.
Qed.

Lemma panel_data_is_Some interpolated :
  length interpolated = 10%nat ->
  exists data, panel_data interpolated = Some data /\ length data = 15%nat.
Proof.
  intros H. do 11 (destruct interpolated as [|? interpolated]; try done).
  eexists. split; reflexivity.
Qed.

Section CallReturns.
Variable griddata :
  array1 -> array1 -> array1 -> array2 -> array2 -> option array2.

Lemma interpolate_output_is_Some x y values extent :
  is_Some (interpolate_output griddata x y values extent) <->
  Forall (fun value =>
            exists val,
              griddata x y value (fst (grid_of extent)) (snd (grid_of extent))
              = Some val /\
              same_shape val (fst (grid_of extent)) = true) values.
Proof.
  rewrite interpolate_output_unfold, mapM_is_Some.
  apply Forall_iff. intros value. simpl. unfold interpolate_one.
  destruct (has_shape_grid_of extent) as [Hxi _].
  pose proof (has_shape_heat_sink_mask extent) as Hmask.
  destruct (griddata x y value _ _) as [val|]; simpl.
  - unfold setitem_mask, nan_pass_through, nan_to_num.
    rewrite same_shape_map2d.
    destruct (same_shape val (heat_sink_mask _ _)) eqn:Hs.
    + split; [|by eauto]. intros _. exists val. split; [done|].
      apply (has_shape_same_shape 100 100); [|done].
      by eapply same_shape_has_shape.
    + split; [by intros [? ?]|]. intros (val' & [= <-] & Hs').
      rewrite (has_shape_same_shape 100 100) in Hs; [done| |done].
      by eapply same_shape_has_shape.
  - split; [by intros [? ?]|]. by intros (? & ? & _).
Qed.

(** The call returns exactly when the interpolation routine returns,
    for each of the ten value arrays, an array of the shape of the
    grid; nothing else in the call can raise once the inputs are read,
    and no property of the extent is checked. *)
Theorem call_returns_iff invar true_outvar pred_outvar x y extent values :
  call_inputs invar true_outvar pred_outvar = Some (x, y, extent, values) ->
  is_Some (call griddata invar true_outvar pred_outvar) <->
  Forall (fun value =>
            exists val,
              griddata x y value (fst (grid_of extent)) (snd (grid_of extent))
              = Some val /\
              same_shape val (fst (grid_of extent)) = true) values.
Proof.
  intros Hin. rewrite <- interpolate_output_is_Some.
  unfold call. rewrite Hin. cbn [mbind option_bind].
  destruct (interpolate_output griddata x y values extent)
    as [interpolated|] eqn:Hint; cbn [mbind option_bind];
    [|split; by intros [? ?]].
  split; [by eauto|]. intros _.
  assert (Hlen : length interpolated = 10%nat).
  { rewrite interpolate_output_unfold in Hint.
    apply length_mapM in Hint. rewrite <- Hint.
    by eapply call_inputs_length. }
  destruct (panel_data_is_Some interpolated Hlen) as (data & -> & Hdata).
  cbn [mbind option_bind].
  destruct (mapM_is_Some_2 (draw_panel data) (seq 0 15)) as [ps Hps].
  { apply Forall_forall. intros i Hi%elem_of_seq.
    apply draw_panel_is_Some; [done|lia]. }
  rewrite Hps. by eauto.
Qed.
End CallReturns.

(** ** The order of binary64 values *)

Module F64Order.

Local Abbreviation key := F64.key.
Local Abbreviation lex_le := F64.lex_le.
Local Abbreviation lex_lt := F64.lex_lt.

Lemma compare_key x y :
  F64.is_nan x = false -> F64.is_nan y = false ->
  exists c, SFcompare x y = Some c /\
    (c = Lt <-> lex_lt (key x) (key y)) /\
    (c = Eq <-> key x = key y).
Proof.
  intros Hx Hy.
  destruct x as [sx|[]| |[] mx ex], y as [sy|[]| |[] my ey];
    try discriminate; simpl;
    try (eexists; split; [reflexivity|]; split; split;
         first [discriminate | intros; lia | intros [= ?]; lia | done]).
  - destruct (Z.compare_spec ex ey) as [->|Hlt|Hgt].
    + eexists. split; [reflexivity|].
      rewrite Pos.compare_cont_spec. simpl.
      destruct (Pos.compare_spec mx my) as [->|H|H]; simpl;
        split; split; try done; try lia; intros [= ?]; lia.
    + eexists. split; [reflexivity|].
      split; split; try done; try lia; intros [= ?]; lia.
    + eexists. split; [reflexivity|].
      split; split; try done; try lia; intros [= ?]; lia.
  - destruct (Z.compare_spec ex ey) as [->|Hlt|Hgt].
    + eexists. split; [reflexivity|].
      rewrite Pos.compare_cont_spec. simpl.
      destruct (Pos.compare_spec mx my) as [->|H|H]; simpl;
        split; split; try done; try lia; intros [= ?]; lia.
    + eexists. split; [reflexivity|].
      split; split; try done; try lia; intros [= ?]; lia.
    + eexists. split; [reflexivity|].
      split; split; try done; try lia; intros [= ?]; lia.
Qed.

Ltac lex :=
  intros;
  repeat match goal with
         | a : (Z * Z * Z)%type |- _ => destruct a as [[? ?] ?]
         end;
  unfold F64.lex_le, F64.lex_lt in *;
  try match goal with |- _ = _ => f_equal; [f_equal|] end; lia.

Lemma lex_le_refl a : lex_le a a.
Proof. lex. Qed.
Lemma lex_le_trans a b c : lex_le a b -> lex_le b c -> lex_le a c.
Proof. lex. Qed.
Lemma lex_lt_le a b : lex_lt a b -> lex_le a b.
Proof. lex. Qed.
Lemma lex_not_lt_le a b : ~ lex_lt a b -> lex_le b a.
Proof. lex. Qed.
Lemma lex_le_antisym a b : lex_le a b -> lex_le b a -> a = b.
Proof. lex. Qed.
Lemma lex_le_eq a b : a = b -> lex_le a b.
Proof. intros ->. apply lex_le_refl. Qed.

Lemma leb_key x y :
  F64.is_nan x = false -> F64.is_nan y = false ->
  (F64.leb x y = true <-> lex_le (key x) (key y)).
Proof.
  intros Hx Hy. destruct (compare_key x y Hx Hy) as (c & Hc & Hlt & Heq).
  unfold F64.leb, SFleb. rewrite Hc.
  destruct (key x) as [[a1 a2] a3], (key y) as [[b1 b2] b3].
  unfold lex_lt, lex_le in *.
  destruct c; split; intros H; try done.
  - assert ((a1, a2, a3) = (b1, b2, b3)) as [= -> -> ->] by by apply Heq.
    lia.
  - assert (Hl : Lt = Lt) by done. apply Hlt in Hl. lia.
  - exfalso.
    assert (Hne : (a1, a2, a3) <> (b1, b2, b3)).
    { intros He. apply Heq in He. discriminate. }
    assert (Hnl : ~ (a1 < b1 \/ a1 = b1 /\ (a2 < b2 \/ a2 = b2 /\ a3 < b3))%Z).
    { intros Hl. apply Hlt in Hl. discriminate. }
    apply Hne. f_equal; [f_equal|]; lia.
Qed.

Lemma ltb_key x y :
  F64.is_nan x = false -> F64.is_nan y = false ->
  (F64.ltb x y = true <-> lex_lt (key x) (key y)).
Proof.
  intros Hx Hy. destruct (compare_key x y Hx Hy) as (c & Hc & Hlt & Heq).
  unfold F64.ltb, SFltb. rewrite Hc. rewrite <- Hlt.
  destruct c; split; intros H; done.
Qed.

Lemma eqb_key x y :
  F64.is_nan x = false -> F64.is_nan y = false ->
  (F64.eqb x y = true <-> key x = key y).
Proof.
  intros Hx Hy. destruct (compare_key x y Hx Hy) as (c & Hc & Hlt & Heq).
  unfold F64.eqb, SFeqb. rewrite Hc. rewrite <- Heq.
  destruct c; split; intros H; done.
Qed.

Lemma eqb_not_nan x y :
  F64.eqb x y = true -> F64.is_nan x = false /\ F64.is_nan y = false.
Proof. by destruct x as [|[]| |[]], y as [|[]| |[]]. Qed.

Lemma minimum_not_nan a b :
  F64.is_nan (minimum a b) = false ->
  F64.is_nan a = false /\ F64.is_nan b = false /\
  minimum a b = if F64.ltb b a then b else a.
Proof.
  unfold minimum.
  destruct (F64.is_nan a) eqn:Ha; [by rewrite Ha|].
  destruct (F64.is_nan b) eqn:Hb; [by rewrite Hb|]. done.
Qed.

Lemma maximum_not_nan a b :
  F64.is_nan (maximum a b) = false ->
  F64.is_nan a = false /\ F64.is_nan b = false /\
  maximum a b = if F64.ltb a b then b else a.
Proof.
  unfold maximum.
  destruct (F64.is_nan a) eqn:Ha; [by rewrite Ha|].
  destruct (F64.is_nan b) eqn:Hb; [by rewrite Hb|]. done.
Qed.

(** The minimum of a list that holds no NaN bounds every element from
    below; a NaN anywhere makes the minimum NaN. *)
Lemma foldl_minimum_bound (l : array1) : forall acc m,
  foldl minimum acc l = m -> F64.is_nan m = false ->
  F64.is_nan acc = false /\ lex_le (key m) (key acc) /\
  Forall (fun u => F64.is_nan u = false /\ lex_le (key m) (key u)) l.
Proof.
  induction l as [|u l IH]; intros acc m Hm Hnan; simpl in Hm.
  - subst m. split; [done|]. split; [apply lex_le_refl|constructor].
  - destruct (IH _ _ Hm Hnan) as (Hmin & Hle & Hl).
    destruct (minimum_not_nan _ _ Hmin) as (Hacc & Hu & Heq).
    rewrite Heq in Hle. clear Heq.
    split; [done|].
    destruct (F64.ltb u acc) eqn:Hlt.
    + apply (ltb_key u acc Hu Hacc) in Hlt. split.
      * eapply lex_le_trans; [exact Hle|]. by apply lex_lt_le.
      * by constructor.
    + assert (Hnlt : ~ lex_lt (key u) (key acc)).
      { intros H. apply (ltb_key u acc Hu Hacc) in H. congruence. }
      split; [done|]. constructor; [|done]. split; [done|].
      eapply lex_le_trans; [exact Hle|]. by apply lex_not_lt_le.
Qed.

Lemma foldl_maximum_bound (l : array1) : forall acc m,
  foldl maximum acc l = m -> F64.is_nan m = false ->
  F64.is_nan acc = false /\ lex_le (key acc) (key m) /\
  Forall (fun u => F64.is_nan u = false /\ lex_le (key u) (key m)) l.
Proof.
  induction l as [|u l IH]; intros acc m Hm Hnan; simpl in Hm.
  - subst m. split; [done|]. split; [apply lex_le_refl|constructor].
  - destruct (IH _ _ Hm Hnan) as (Hmax & Hle & Hl).
    destruct (maximum_not_nan _ _ Hmax) as (Hacc & Hu & Heq).
    rewrite Heq in Hle. clear Heq.
    split; [done|].
    destruct (F64.ltb acc u) eqn:Hlt.
    + apply (ltb_key acc u Hacc Hu) in Hlt. split.
      * eapply lex_le_trans; [|exact Hle]. by apply lex_lt_le.
      * by constructor.
    + assert (Hnlt : ~ lex_lt (key acc) (key u)).
      { intros H. apply (ltb_key acc u Hacc Hu) in H. congruence. }
      split; [done|]. constructor; [|done]. split; [done|].
      eapply lex_le_trans; [|exact Hle]. by apply lex_not_lt_le.
Qed.

End F64Order.

(** [x.min() == x.max()] means that all entries of [x] are equal. *)
Lemma amin_eq_amax x m M :
  amin x = Some m -> amax x = Some M -> F64.eqb m M = true ->
  all_equal_to m x.
Proof.
  destruct x as [|v l]; [done|]. simpl. intros [= Hm] [= HM] Heq.
  destruct (F64Order.eqb_not_nan _ _ Heq) as [Hmn HMn].
  apply (F64Order.eqb_key _ _ Hmn HMn) in Heq.
  destruct (F64Order.foldl_minimum_bound l v m Hm Hmn) as (Hv & Hlo & Hl).
  destruct (F64Order.foldl_maximum_bound l v M HM HMn) as (_ & Hhi & Hh).
  assert (Hall : Forall (fun u => F64.is_nan u = false /\
                           F64.lex_le (F64.key m) (F64.key u) /\
                           F64.lex_le (F64.key u) (F64.key M))
                   (v :: l)).
  { constructor; [done|]. rewrite Forall_forall in Hl, Hh.
    apply Forall_forall. intros u Hu.
    destruct (Hl u Hu), (Hh u Hu). done. }
  unfold all_equal_to. eapply Forall_impl; [exact Hall|].
  intros u (Hu & Hmu & HuM). simpl.
  apply (F64Order.eqb_key u m Hu Hmn). rewrite <- Heq in HuM.
  by apply F64Order.lex_le_antisym.
Qed.



(** ** Degenerate extents *)

(** Nothing in the call looks at the width or height of the extent.
    With [x.min() = x.max()] the grid is built all the same: the 100
    abscissae are equal. *)
Lemma sub_diag_finite s m e :
  F64.sub (S754_finite s m e) (S754_finite s m e) = F64.zero.
Proof. unfold F64.sub, SFsub. by rewrite Z.sub_diag. Qed.

Lemma linspace_degenerate s m e :
  linspace (S754_finite s m e) (S754_finite s m e) 100
  = replicate 100 (S754_finite s m e).
Proof.
  unfold linspace. rewrite sub_diag_finite.
  set (a := S754_finite s m e).
  change (bool_decide (0 < 100 - 1)%nat) with true.
  change (bool_decide (1 < 100)%nat) with true.
  cbv iota zeta beta.
  replace (F64.eqb (F64.div F64.zero (F64.of_int (Z.of_nat (100 - 1))))
             F64.zero) with true by (vm_compute; reflexivity).
  replace (map (fun v => F64.mul (F64.div v (F64.of_int (Z.of_nat (100 - 1))))
                           F64.zero) (arange 100))
    with (replicate 100 F64.zero) by (vm_compute; reflexivity).
  change (100 - 1)%nat with 99%nat.
  reflexivity.
Qed.

Lemma meshgrid_ij_constant_rows (a : float) (b : array1) n :
  fst (meshgrid_ij (replicate n a) b) = replicate n (replicate (length b) a).
Proof.
  unfold meshgrid_ij. simpl fst.
  assert (H : map (fun _ : float => a) b = replicate (length b) a).
  { induction b as [|? ? IH]; simpl; [done|]. by rewrite IH. }
  induction n as [|n IH]; simpl; [done|]. by rewrite H, IH.
Qed.

Lemma grid_of_degenerate_width s m e e2 e3 :
  fst (grid_of (S754_finite s m e, S754_finite s m e, e2, e3))
  = replicate 100 (replicate 100 (S754_finite s m e)).
Proof.
  unfold grid_of. rewrite linspace_degenerate, meshgrid_ij_constant_rows.
  by rewrite length_linspace.
Qed.

Section DegenerateExtent.

Variable griddata :
  array1 -> array1 -> array1 -> array2 -> array2 -> option array2.

(** If the interpolation routine raises whenever the sample points lie
    on one vertical or one horizontal line (for SciPy's linear method
    the triangulation of such points fails), the call raises on every
    degenerate extent: it has ten value arrays to interpolate, passes
    the sample coordinates on unchanged, and handles no exception. *)
Theorem call_raises_on_degenerate_extent
    (invar true_outvar pred_outvar : fields) (x y : array1)
    (x_min x_max y_min y_max : float) (values : list array1) :
  (forall x y value xi yi a,
     all_equal_to a x \/ all_equal_to a y ->
     griddata x y value xi yi = None) ->
  call_inputs invar true_outvar pred_outvar
  = Some (x, y, (x_min, x_max, y_min, y_max), values) ->
  F64.eqb x_min x_max = true \/ F64.eqb y_min y_max = true ->
  call griddata invar true_outvar pred_outvar = None.
Proof.
  intros Hflat Hin Hdeg.
  assert (Hxy : (exists a, all_equal_to a x) \/ (exists a, all_equal_to a y)).
  { unfold call_inputs in Hin.
    apply bind_Some in Hin as (x0 & _ & H).
    apply bind_Some in H as (y0 & _ & H).
    apply bind_Some in H as (a & Hxmin & H).
    apply bind_Some in H as (b & Hxmax & H).
    apply bind_Some in H as (c & Hymin & H).
    apply bind_Some in H as (d & Hymax & H).
    repeat (apply bind_Some in H as (? & _ & H)).
    simplify_eq.
    destruct Hdeg as [Hdeg|Hdeg]; [left|right]; eexists;
      eapply amin_eq_amax; eassumption. }
  assert (Hvalues : exists value rest, values = value :: rest).
  { pose proof (call_inputs_length _ _ _ _ _ _ _ Hin).
    destruct values; [done|]. by eauto. }
  destruct Hvalues as (value & rest & ->).
  unfold call. rewrite Hin. cbn [mbind option_bind].
  rewrite interpolate_output_unfold.
  rewrite (mapM_None_2 _ (value :: rest)); [done|].
  apply Exists_cons_hd. unfold interpolate_one.
  destruct Hxy as [[a Ha]|[a Ha]]; by erewrite Hflat by eauto.
Qed.

End DegenerateExtent.

Lemma is_flat_all_equal a v : all_equal_to a v -> is_flat v = true.
Proof.
  destruct v as [|h v]; [done|]. intros Hall. unfold is_flat.
  apply forallb_forall. intros u Hu%list_elem_of_In.
  unfold all_equal_to in Hall. rewrite Forall_forall in Hall.
  pose proof (Hall h ltac:(left)) as Hh. pose proof (Hall u Hu) as Hua.
  destruct (F64Order.eqb_not_nan _ _ Hh) as [Hhn Han].
  destruct (F64Order.eqb_not_nan _ _ Hua) as [Hun _].
  apply (F64Order.eqb_key _ _ Hun Hhn).
  apply (F64Order.eqb_key _ _ Hun Han) in Hua.
  apply (F64Order.eqb_key _ _ Hhn Han) in Hh. congruence.
Qed.

Example call_raises_on_degenerate_extent_sample :
  call guarded_griddata flat_invar sample_true_outvar sample_pred_outvar
  = None.
Proof.
  assert (Hin : is_Some (call_inputs flat_invar sample_true_outvar
                           sample_pred_outvar))
    by (apply (bool_decide_unpack _); vm_compute; exact I).
  destruct Hin as [[[[x y] [[[x_min x_max] y_min] y_max]] values] Hin].
  apply (call_raises_on_degenerate_extent guarded_griddata
           flat_invar sample_true_outvar sample_pred_outvar
           x y x_min x_max y_min y_max values).
  - intros x' y' value xi yi a Hflat. unfold guarded_griddata.
    destruct Hflat as [H|H]; rewrite (is_flat_all_equal _ _ H);
      [done|by rewrite orb_true_r].
  - exact Hin.
  - left. vm_compute in Hin. injection Hin as <- <- <- <- <- <- <-.
    reflexivity.
Qed.

(** ** The store: which arrays a computation may overwrite *)

Module StoreFacts.
Import Store.

Section Rules.
Context {A B : Type}.
Variable h0 : heap.

Lemma preserves_ret (a : A) (Q : A -> Prop) :
  Q a -> preserves h0 (mret a) Q.
Proof. intros HQ h a' h' Hh [= <- <-]. done. Qed.

Lemma preserves_bind (m : M A) (f : A -> M B) (P : A -> Prop)
    (Q : B -> Prop) :
  preserves h0 m P -> (forall a, P a -> preserves h0 (f a) Q) ->
  preserves h0 (m ≫= f) Q.
Proof.
  intros Hm Hf h b h' Hh. unfold mbind, M_bind.
  destruct (m h) as [[a h1]|] eqn:Hmh; [|done].
  destruct (Hm h a h1 Hh Hmh) as [Hh1 HP]. intros Hfa.
  by apply (Hf a HP h1).
Qed.

Lemma preserves_weaken (m : M A) (P Q : A -> Prop) :
  preserves h0 m P -> (forall a, P a -> Q a) -> preserves h0 m Q.
Proof.
  intros Hm HPQ h a h' Hh Hmh. destruct (Hm h a h' Hh Hmh). auto.
Qed.

Lemma preserves_lift (o : option A) :
  preserves h0 (lift o) (fun _ => True).
Proof. intros h a h' Hh. unfold lift. destruct o; [|done]. by intros [= <- <-]. Qed.

End Rules.

Section Primitives.
Variable h0 : heap.

Lemma preserves_alloc (a : ndarray) : preserves h0 (alloc a) (fresh h0).
Proof.
  intros h r h' Hh [= <- <-]. split.
  - by apply prefix_app_r.
  - unfold fresh. simpl. by apply prefix_length.
Qed.

Lemma preserves_read_vec r : preserves h0 (read_vec r) (fun _ => True).
Proof.
  intros h a h' Hh. unfold read_vec.
  repeat case_match; try done; by intros [= <- <-].
Qed.

Lemma preserves_read_mat r : preserves h0 (read_mat r) (fun _ => True).
Proof.
  intros h a h' Hh. unfold read_mat.
  repeat case_match; try done; by intros [= <- <-].
Qed.

Lemma preserves_read_mask r : preserves h0 (read_mask r) (fun _ => True).
Proof.
  intros h a h' Hh. unfold read_mask.
  repeat case_match; try done; by intros [= <- <-].
Qed.

Lemma prefix_insert_fresh (h : heap) l a :
  h0 `prefix_of` h -> (length h0 <= l)%nat -> h0 `prefix_of` <[l := a]> h.
Proof.
  intros [k ->] Hl. rewrite insert_app_r_alt by done. by apply prefix_app_r.
Qed.

Lemma preserves_write_mat r d :
  fresh h0 r -> preserves h0 (write_mat r d) (fun _ => True).
Proof.
  intros Hr h a h' Hh. unfold write_mat.
  repeat case_match; try done; intros [= <- <-]; split; try done;
    by apply prefix_insert_fresh.
Qed.

Lemma preserves_write_mask r d :
  fresh h0 r -> preserves h0 (write_mask r d) (fun _ => True).
Proof.
  intros Hr h a h' Hh. unfold write_mask.
  repeat case_match; try done; intros [= <- <-]; split; try done;
    by apply prefix_insert_fresh.
Qed.

Lemma preserves_mapM {A B} (f : A -> M B) (Q : B -> Prop) (l : list A) :
  (forall x, preserves h0 (f x) Q) -> preserves h0 (mapM f l) (Forall Q).
Proof.
  intros Hf. induction l as [|x l IH]; simpl.
  - by apply preserves_ret.
  - eapply preserves_bind; [apply Hf|]. intros y Hy.
    eapply preserves_bind; [apply IH|]. intros k Hk.
    apply preserves_ret. by constructor.
Qed.

End Primitives.

Create HintDb frame.

#[export] Hint Resolve preserves_lift preserves_alloc preserves_read_vec
  preserves_read_mat preserves_read_mask preserves_write_mat
  preserves_write_mask preserves_mapM : frame.

(** One statement of a computation at a time. *)
Ltac frame :=
  repeat first
    [ apply preserves_ret
    | eapply preserves_bind; [solve [eauto with frame]|intros ? ?]
    | lazymatch goal with
      | |- preserves _ (let '(_, _) := ?g in _) _ => destruct g
      end
    | solve [eauto with frame] ].

Section Program.
Variable h0 : heap.

Lemma preserves_column0_view r :
  preserves h0 (column0_view r) (fun _ => True).
Proof. destruct r; simpl; frame; done. Qed.

Lemma preserves_transpose_view r :
  preserves h0 (transpose_view r) (fun _ => True).
Proof. destruct r; simpl; frame; done. Qed.

Hint Resolve preserves_column0_view preserves_transpose_view : frame.

Lemma preserves_field d name : preserves h0 (field d name) (fun _ => True).
Proof. unfold field. frame. Qed.

Lemma preserves_amin r : preserves h0 (amin r) (fun _ => True).
Proof. unfold amin. frame. Qed.

Lemma preserves_amax r : preserves h0 (amax r) (fun _ => True).
Proof. unfold amax. frame. Qed.

Lemma preserves_mul_scalar r s : preserves h0 (mul_scalar r s) (fresh h0).
Proof. unfold mul_scalar. frame. Qed.

Lemma preserves_linspace a b n : preserves h0 (linspace a b n) (fresh h0).
Proof. unfold linspace. frame. Qed.

Lemma preserves_meshgrid_ij a b :
  preserves h0 (meshgrid_ij a b)
    (fun grid => fresh h0 (fst grid) /\ fresh h0 (snd grid)).
Proof. unfold meshgrid_ij. frame; done. Qed.

Lemma preserves_ior mask rhs :
  fresh h0 mask -> preserves h0 (ior mask rhs) (fun _ => True).
Proof. intros Hm. unfold ior. frame. Qed.

Hint Resolve preserves_field preserves_amin preserves_amax
  preserves_mul_scalar preserves_linspace preserves_meshgrid_ij
  preserves_ior : frame.

Lemma preserves_heat_sink_mask xi yi :
  preserves h0 (heat_sink_mask xi yi) (fresh h0).
Proof.
  unfold heat_sink_mask. frame.
  eapply preserves_bind.
  - apply preserves_mapM. intros j. frame.
  - intros _ _. frame; done.
Qed.

Lemma preserves_setitem_mask a mask v :
  fresh h0 a -> preserves h0 (setitem_mask a mask v) (fun _ => True).
Proof. intros Ha. unfold setitem_mask. frame. Qed.

Lemma preserves_sub2d a b : preserves h0 (sub2d a b) (fresh h0).
Proof. unfold sub2d. frame. Qed.

Hint Resolve preserves_heat_sink_mask preserves_setitem_mask
  preserves_sub2d : frame.

Section WithGriddata.
Variable griddata :
  array1 -> array1 -> array1 -> array2 -> array2 -> option array2.

Lemma preserves_griddata_call x y value xi yi :
  preserves h0 (griddata_call griddata x y value xi yi) (fresh h0).
Proof. unfold griddata_call. frame. Qed.

Lemma preserves_nan_to_num_copy val :
  preserves h0 (nan_to_num_copy val) (fresh h0).
Proof. unfold nan_to_num_copy. frame. Qed.

Hint Resolve preserves_griddata_call preserves_nan_to_num_copy : frame.

Lemma preserves_masked_writes mask (vals : list ref) :
  Forall (fresh h0) vals ->
  preserves h0 (mapM (fun val => setitem_mask val mask F64.nan) vals)
    (fun _ => True).
Proof.
  induction 1 as [|val vals Hval _ IH]; simpl; frame; done.
Qed.

Lemma preserves_interpolate_output x y values extent :
  preserves h0 (interpolate_output griddata x y values extent)
    (Forall (fresh h0)).
Proof.
  destruct extent as [[[e0 e1] e2] e3]. unfold interpolate_output.
  frame.
  eapply preserves_bind; [by apply preserves_masked_writes|].
  intros _ _. frame; done.
Qed.

Lemma preserves_draw_panel data i :
  preserves h0 (draw_panel data i) (fun _ => True).
Proof. unfold draw_panel. frame. case_bool_decide; frame; done. Qed.

Lemma preserves_panel_data interpolated :
  preserves h0 (panel_data interpolated) (fun _ => True).
Proof.
  unfold panel_data. repeat case_match; frame; done.
Qed.

Lemma preserves_call_inputs invar true_outvar pred_outvar :
  preserves h0 (call_inputs invar true_outvar pred_outvar) (fun _ => True).
Proof. unfold call_inputs. frame; done. Qed.

Hint Resolve preserves_interpolate_output preserves_draw_panel
  preserves_panel_data preserves_call_inputs : frame.

Lemma preserves_call invar true_outvar pred_outvar :
  preserves h0 (call griddata invar true_outvar pred_outvar)
    (fun _ => True).
Proof.
  unfold call. frame; done.
Qed.

End WithGriddata.
End Program.
End StoreFacts.

(** An in-place assignment does change the array it is applied to: the
    store is not write-once. *)
Example setitem_mask_overwrites :
  Store.setitem_mask (Store.Whole 0) (Store.Whole 1) F64.nan
    [Store.Mat [[F64.of_int 7]]; Store.Mask [[true]]]
  = Some ((), [Store.Mat [[F64.nan]]; Store.Mask [[true]]]).
Proof. reflexivity. Qed.

(** C9. The plotting call does not mutate its inputs: when it returns,
    the store is the store it started in followed by newly allocated
    arrays, so every array that existed before the call, and in
    particular every array of [invar], [true_outvar] and [pred_outvar],
    holds the same values as before.  The in-place statements of the
    call write to arrays allocated during the call. *)
Theorem call_leaves_inputs_unchanged
    (griddata :
       array1 -> array1 -> array1 -> array2 -> array2 -> option array2)
    (invar true_outvar pred_outvar : Store.fields)
    (h h' : Store.heap) (res : list (Figure * string)) :
  Store.call griddata invar true_outvar pred_outvar h = Some (res, h') ->
  (exists new, h' = h ++ new) /\
  forall d name r a,
    d ∈ [invar; true_outvar; pred_outvar] ->
    d !! name = Some r ->
    h !! Store.base r = Some a ->
    h' !! Store.base r = Some a.
Proof.
  intros Hcall.
  destruct (StoreFacts.preserves_call h griddata invar true_outvar
              pred_outvar h res h' (reflexivity h) Hcall) as [[new ->] _].
  split; [by exists new|].
  intros d name r a _ _ Ha. by apply lookup_app_l_Some.
Qed.

Lemma call_leaves_inputs_unchanged_witness :
  exists res h',
    Store.call constant_griddata sample_invar_refs sample_true_outvar_refs
      sample_pred_outvar_refs sample_store = Some (res, h') /\
    h' !! 0%nat = sample_store !! 0%nat.
Proof.
  assert (Hsome : is_Some
    (Store.call constant_griddata sample_invar_refs sample_true_outvar_refs
       sample_pred_outvar_refs sample_store))
    by (apply (bool_decide_unpack _); vm_compute; exact I).
  destruct Hsome as [[res h'] Hcall]. exists res, h'.
  split; [exact Hcall|].
  apply (proj2 (call_leaves_inputs_unchanged constant_griddata
           sample_invar_refs sample_true_outvar_refs sample_pred_outvar_refs
           sample_store h' res Hcall)
           sample_invar_refs "x" (Store.Whole 0)
           (Store.Mat (column [0; 1; 0]%Z))).
  - apply list_elem_of_here.
  - reflexivity.
  - reflexivity.
Defined.

(** ** The store-level call computes what the value-level call computes *)

Module StoreSim.

(* The value-level functions, before the store-level ones of the same
   name come into scope. *)
Local Abbreviation value_field := field.
Local Abbreviation value_call_inputs := call_inputs.
Local Abbreviation value_heat_sink_mask := heat_sink_mask.
Local Abbreviation value_interpolate_output := interpolate_output.
Local Abbreviation value_panel_data := panel_data.
Local Abbreviation value_draw_panel := draw_panel.
Local Abbreviation value_call := call.

Import Store.

Lemma agrees_bind {A A' B B'} (m : M A) (f : A -> M A') (p : option B)
    (g : B -> option B') h R S :
  agrees (m h) p R ->
  (forall a h' b, R a h' b -> agrees (f a h') (g b) S) ->
  agrees ((m ≫= f) h) (p ≫= g) S.
Proof.
  intros Hm Hf. unfold mbind at 1, M_bind.
  destruct (m h) as [[a h']|], p as [b|]; simpl in *; try done.
  by apply Hf.
Qed.

Lemma agrees_lift {A A' B'} (o : option A) (f : A -> M A')
    (g : A -> option B') h S :
  (forall a, o = Some a -> agrees (f a h) (g a) S) ->
  agrees ((lift o ≫= f) h) (o ≫= g) S.
Proof.
  intros H. unfold mbind, M_bind, lift. destruct o as [a|]; simpl; [|done].
  by apply H.
Qed.

Lemma agrees_weaken {A B} (m : option (A * heap)) (p : option B)
    (R S : A -> heap -> B -> Prop) :
  agrees m p R -> (forall a h b, R a h b -> S a h b) -> agrees m p S.
Proof. unfold agrees. destruct m as [[a h]|], p; auto. Qed.

Lemma vec_of_app h k r v : vec_of h r v -> vec_of (h ++ k) r v.
Proof.
  unfold vec_of, read_vec. destruct r as [l|l|l]; [| |done].
  - destruct (h !! l) as [[d| |]|] eqn:Hl; try done. intros [= ->].
    by rewrite (lookup_app_l_Some _ _ _ _ Hl).
  - destruct (h !! l) as [[|d|]|] eqn:Hl; try done.
    rewrite (lookup_app_l_Some _ _ _ _ Hl).
    destruct (column0 d); [|done]. by intros [= ->].
Qed.

Lemma mat_at_app h k r a : mat_at h r a -> mat_at (h ++ k) r a.
Proof. intros (l & -> & Hl). exists l. split; [done|]. by apply lookup_app_l_Some. Qed.

Lemma mask_at_app h k r m : mask_at h r m -> mask_at (h ++ k) r m.
Proof. intros (l & -> & Hl). exists l. split; [done|]. by apply lookup_app_l_Some. Qed.

Lemma mat_at_new h a : mat_at (h ++ [Mat a]) (Whole (length h)) a.
Proof. exists (length h). split; [done|]. by apply list_lookup_middle. Qed.

Lemma read_vec_of h r v : vec_of h r v -> read_vec r h = Some (v, h).
Proof. done. Qed.

Lemma read_mat_at h r a : mat_at h r a -> read_mat r h = Some (a, h).
Proof. intros (l & -> & Hl). simpl. by rewrite Hl. Qed.

Lemma read_mask_at h r m : mask_at h r m -> read_mask r h = Some (m, h).
Proof. intros (l & -> & Hl). simpl. by rewrite Hl. Qed.

(** [field] reads the same column from the store as from its snapshot,
    also after 1-D arrays have been allocated. *)
Lemma field_agrees d name h k :
  Forall (fun a => exists v, a = Vec v) k ->
  agrees (Store.field d name (h ++ k)) (value_field (snapshot h d) name)
    (fun r h' v => h' = h ++ k /\ vec_of (h ++ k) r v).
Proof.
  intros Hk. unfold Store.field, value_field, snapshot.
  rewrite lookup_omap. unfold mbind at 1, M_bind, lift.
  destruct (d !! name) as [r|]; simpl; [|done].
  destruct r as [l|l|l]; simpl; [|done..].
  unfold mbind, M_bind, vec_of, read_vec.
  destruct (h !! l) as [x|] eqn:Hl.
  - rewrite (lookup_app_l_Some _ _ _ _ Hl).
    destruct x as [|a|]; simpl; try done.
    destruct (column0 a) as [v|] eqn:Hc; simpl; [|done].
    rewrite (lookup_app_l_Some _ _ _ _ Hl), Hc. done.
  - simpl. destruct ((h ++ k) !! l) as [x|] eqn:Hx; [|done].
    apply lookup_ge_None in Hl. rewrite lookup_app_r in Hx by done.
    rewrite Forall_lookup in Hk. destruct (Hk _ _ Hx) as [v ->]. done.
Qed.

Lemma bind_run {A B} (m : M A) (f : A -> M B) h a h1 :
  m h = Some (a, h1) -> (m ≫= f) h = f a h1.
Proof. intros H. unfold mbind, M_bind. by rewrite H. Qed.

Lemma amin_agrees h r v :
  vec_of h r v ->
  agrees (Store.amin r h) (Np.amin v) (fun a h' b => a = b /\ h' = h).
Proof.
  intros Hr. unfold Store.amin. rewrite (bind_run _ _ _ _ _ Hr).
  unfold lift. by destruct (Np.amin v).
Qed.

Lemma amax_agrees h r v :
  vec_of h r v ->
  agrees (Store.amax r h) (Np.amax v) (fun a h' b => a = b /\ h' = h).
Proof.
  intros Hr. unfold Store.amax. rewrite (bind_run _ _ _ _ _ Hr).
  unfold lift. by destruct (Np.amax v).
Qed.

Lemma mul_scalar_run h r v s :
  vec_of h r v ->
  Store.mul_scalar r s h
  = Some (Whole (length h), h ++ [Vec (Np.mul_scalar v s)]).
Proof. intros Hr. unfold Store.mul_scalar. by rewrite (bind_run _ _ _ _ _ Hr). Qed.

Lemma mask_at_new_mask h m : mask_at (h ++ [Mask m]) (Whole (length h)) m.
Proof. exists (length h). split; [done|]. by apply list_lookup_middle. Qed.

Lemma vec_of_new h v : vec_of (h ++ [Vec v]) (Whole (length h)) v.
Proof. unfold vec_of. simpl. by rewrite list_lookup_middle. Qed.

Lemma vec_of_prefix h h' r v : vec_of h r v -> h `prefix_of` h' -> vec_of h' r v.
Proof. intros Hr [k ->]. by apply vec_of_app. Qed.

Lemma mat_at_prefix h h' r a : mat_at h r a -> h `prefix_of` h' -> mat_at h' r a.
Proof. intros Hr [k ->]. by apply mat_at_app. Qed.

Lemma mask_at_prefix h h' r m :
  mask_at h r m -> h `prefix_of` h' -> mask_at h' r m.
Proof. intros Hr [k ->]. by apply mask_at_app. Qed.

(** A fact about an earlier store holds in a later one. *)
Ltac solve_prefix :=
  repeat first [reflexivity | apply prefix_app_r].
Ltac transport :=
  first [ eapply vec_of_prefix; [eassumption|solve_prefix]
        | eapply vec_of_prefix; [apply vec_of_new|solve_prefix]
        | eapply mat_at_prefix; [apply mat_at_new|solve_prefix]
        | eapply mat_at_prefix; [eassumption|solve_prefix]
        | eapply mask_at_prefix; [eassumption|solve_prefix] ].

Ltac field_step :=
  eapply agrees_bind; [by apply field_agrees|intros ? ? ? [-> ?]].

Lemma call_inputs_agrees invar true_outvar pred_outvar h :
  agrees (Store.call_inputs invar true_outvar pred_outvar h)
    (value_call_inputs (snapshot h invar) (snapshot h true_outvar)
       (snapshot h pred_outvar))
    (fun inputs h' vinputs =>
       let '(x, y, extent, values) := inputs in
       let '(vx, vy, vextent, vvalues) := vinputs in
       extent = vextent /\ vec_of h' x vx /\ vec_of h' y vy /\
       Forall2 (vec_of h') values vvalues).
Proof.
  unfold Store.call_inputs, value_call_inputs.
  rewrite <- (app_nil_r h) at 1.
  assert (Hk : Forall (fun a => exists v, a = Vec v) (@nil ndarray))
    by constructor.
  revert Hk. generalize (@nil ndarray) as k. intros k Hk.
  do 2 field_step.
  eapply agrees_bind; [by apply amin_agrees|intros ? ? ? [-> ->]].
  eapply agrees_bind; [by apply amax_agrees|intros ? ? ? [-> ->]].
  eapply agrees_bind; [by apply amin_agrees|intros ? ? ? [-> ->]].
  eapply agrees_bind; [by apply amax_agrees|intros ? ? ? [-> ->]].
  do 5 field_step.
  erewrite bind_run by (by apply mul_scalar_run).
  rewrite <- app_assoc.
  match goal with
  | |- context [h ++ k ++ [Vec ?u]] =>
      assert (Hk1 : Forall (fun a => exists v, a = Vec v) (k ++ [Vec u]))
        by (apply Forall_app; split; [done|]; repeat constructor; by eexists)
  end.
  do 5 field_step.
  erewrite bind_run by (by apply mul_scalar_run).
  simpl. rewrite ?app_assoc in *.
  repeat split; try done; repeat (constructor; try done);
    transport.
Qed.

Lemma insert_middle {A} (l1 l2 : list A) x y :
  <[length l1 := x]> (l1 ++ y :: l2) = l1 ++ x :: l2.
Proof.
  rewrite <- (Nat.add_0_r (length l1)) at 1. by rewrite insert_app_r.
Qed.

Lemma mapM_cons_store {A B} (f : A -> M B) x l :
  mapM f (x :: l) = (y ← f x; k ← mapM f l; mret (y :: k)).
Proof. reflexivity. Qed.

Lemma mapM_cons_option {A B} (f : A -> option B) x l :
  mapM f (x :: l) = (y ← f x; k ← mapM f l; mret (y :: k)).
Proof. reflexivity. Qed.

Lemma length_snoc {A} (l : list A) x : length (l ++ [x]) = S (length l).
Proof. rewrite length_app. simpl. lia. Qed.

Lemma linspace_run a b n h :
  Store.linspace a b n h
  = Some (Whole (length h), h ++ [Vec (Np.linspace a b n)]).
Proof. reflexivity. Qed.

Lemma meshgrid_ij_run h a b va vb :
  vec_of h a va -> vec_of h b vb ->
  Store.meshgrid_ij a b h
  = Some ((Whole (length h), Whole (S (length h))),
          h ++ [Mat (fst (Np.meshgrid_ij va vb));
                Mat (snd (Np.meshgrid_ij va vb))]).
Proof.
  intros Ha Hb. unfold Store.meshgrid_ij.
  rewrite (bind_run _ _ _ _ _ Ha), (bind_run _ _ _ _ _ Hb).
  unfold mbind, M_bind, alloc, mret, M_ret. simpl.
  rewrite length_app, <- app_assoc. simpl.
  by replace (length h + 1)%nat with (S (length h)) by lia.
Qed.

Lemma mask_at_middle h m k : mask_at (h ++ Mask m :: k) (Whole (length h)) m.
Proof. exists (length h). split; [done|]. by apply list_lookup_middle. Qed.

Lemma mat_at_middle h a k : mat_at (h ++ Mat a :: k) (Whole (length h)) a.
Proof. exists (length h). split; [done|]. by apply list_lookup_middle. Qed.

Lemma ior_run h mask rhs m b l :
  mask = Whole l -> h !! l = Some (Mask m) -> mask_at h rhs b ->
  Store.ior mask rhs h = Some ((), <[l := Mask (or2d m b)]> h).
Proof.
  intros -> Hl Hb. unfold Store.ior.
  assert (Hm : mask_at h (Whole l) m) by by exists l.
  rewrite (bind_run _ _ _ _ _ (read_mask_at _ _ _ Hm)).
  rewrite (bind_run _ _ _ _ _ (read_mask_at _ _ _ Hb)).
  unfold write_mask. by rewrite Hl.
Qed.

Lemma mask_loop_run fs xi yi vxi vyi h js : forall m temps,
  mat_at h xi vxi -> mat_at h yi vyi ->
  exists us temps',
    mapM (fun j =>
            vxi ← read_mat xi; vyi ← read_mat yi;
            rhs ← alloc (Mask (fin_band fs vxi vyi j));
            Store.ior (Whole (length h)) rhs) js (h ++ Mask m :: temps)
    = Some (us,
            h ++ Mask (foldl (fun mask j => or2d mask (fin_band fs vxi vyi j))
                         m js) :: temps').
Proof.
  induction js as [|j js IH]; intros m temps Hxi Hyi; simpl.
  - by exists [], temps.
  - assert (Hxi' : mat_at (h ++ Mask m :: temps) xi vxi) by by apply mat_at_app.
    assert (Hyi' : mat_at (h ++ Mask m :: temps) yi vyi) by by apply mat_at_app.
    destruct (IH (or2d m (fin_band fs vxi vyi j))
                (temps ++ [Mask (fin_band fs vxi vyi j)]) Hxi Hyi)
      as (us & temps' & Hrun).
    exists (() :: us), temps'.
    erewrite bind_run; [|].
    2:{ rewrite (bind_run _ _ _ _ _ (read_mat_at _ _ _ Hxi')).
        rewrite (bind_run _ _ _ _ _ (read_mat_at _ _ _ Hyi')).
        erewrite bind_run by reflexivity.
        eapply ior_run; [reflexivity| |].
        - rewrite <- app_assoc. simpl. apply list_lookup_middle. done.
        - apply mask_at_new_mask. }
    rewrite <- app_assoc. simpl. rewrite insert_middle.
    erewrite bind_run by exact Hrun. reflexivity.
Qed.

Lemma heat_sink_mask_run h xi yi vxi vyi :
  mat_at h xi vxi -> mat_at h yi vyi ->
  exists temps,
    Store.heat_sink_mask xi yi h
    = Some (Whole (length h),
            h ++ Mask (value_heat_sink_mask vxi vyi) :: temps).
Proof.
  intros Hxi Hyi. unfold Store.heat_sink_mask.
  rewrite (bind_run _ _ _ _ _ (read_mat_at _ _ _ Hxi)).
  erewrite bind_run by reflexivity.
  destruct (mask_loop_run mask_fins xi yi vxi vyi h
              (seq 0 (Fin.nr_fins mask_fins)) (zeros_like_bool vxi) []
              Hxi Hyi) as (us & temps & Hrun).
  exists temps. erewrite bind_run by exact Hrun. reflexivity.
Qed.

Section Loops.

Variable griddata :
  array1 -> array1 -> array1 -> array2 -> array2 -> option array2.

Lemma griddata_loop_agrees x y xi yi vx vy vxi vyi values vvalues :
  forall h,
    vec_of h x vx -> vec_of h y vy -> mat_at h xi vxi -> mat_at h yi vyi ->
    Forall2 (vec_of h) values vvalues ->
    agrees
      (mapM (fun value => griddata_call griddata x y value xi yi) values h)
      (mapM (fun value => griddata vx vy value vxi vyi) vvalues)
      (fun rs h' gs =>
         rs = map Whole (seq (length h) (length gs)) /\
         h' = h ++ map Mat gs).
Proof.
  intros h Hx Hy Hxi Hyi Hvs. revert h Hvs Hx Hy Hxi Hyi.
  revert vvalues. induction values as [|value values IH];
    intros vvalues h Hvs Hx Hy Hxi Hyi.
  - apply Forall2_nil_inv_l in Hvs as ->. simpl. by rewrite app_nil_r.
  - apply Forall2_cons_inv_l in Hvs as (vv & vvalues' & Hv & Hvs & ->).
    rewrite mapM_cons_store, mapM_cons_option.
    eapply (agrees_bind _ _ _ _ _
              (fun r h' g => r = Whole (length h) /\ h' = h ++ [Mat g])).
    { unfold griddata_call.
      rewrite (bind_run _ _ _ _ _ Hx), (bind_run _ _ _ _ _ Hy),
        (bind_run _ _ _ _ _ Hv),
        (bind_run _ _ _ _ _ (read_mat_at _ _ _ Hxi)),
        (bind_run _ _ _ _ _ (read_mat_at _ _ _ Hyi)).
      unfold mbind, M_bind, lift.
      by destruct (griddata vx vy vv vxi vyi). }
    intros r h' g [-> ->].
    eapply agrees_bind.
    + apply IH.
      * eapply Forall2_impl; [exact Hvs|]. intros. by apply vec_of_app.
      * by apply vec_of_app.
      * by apply vec_of_app.
      * by apply mat_at_app.
      * by apply mat_at_app.
    + intros rs h' gs [-> ->]. simpl. split.
      * by rewrite length_snoc.
      * by rewrite <- app_assoc.
Qed.

Lemma nan_to_num_copy_run h r a :
  mat_at h r a ->
  nan_to_num_copy r h
  = Some (Whole (length h), h ++ [Mat (nan_pass_through a)]).
Proof.
  intros Hr. unfold nan_to_num_copy.
  by rewrite (bind_run _ _ _ _ _ (read_mat_at _ _ _ Hr)).
Qed.

Lemma nan_to_num_loop_run (gs : list array2) : forall h0 extra,
  mapM nan_to_num_copy (map Whole (seq (length h0) (length gs)))
    (h0 ++ map Mat gs ++ extra)
  = Some (map Whole (seq (length (h0 ++ map Mat gs ++ extra)) (length gs)),
          h0 ++ map Mat gs ++ extra ++ map Mat (map nan_pass_through gs)).
Proof.
  induction gs as [|g gs IH]; intros h0 extra.
  - simpl. by rewrite app_nil_r.
  - cbn [length seq map app]. rewrite mapM_cons_store.
    erewrite bind_run by (apply nan_to_num_copy_run, mat_at_middle).
    specialize (IH (h0 ++ [Mat g])
                  (extra ++ [Mat (nan_pass_through g)])).
    rewrite length_snoc in IH.
    rewrite <- !app_assoc in IH. cbn [app] in IH.
    rewrite <- !app_assoc. cbn [app]. rewrite <- ?app_assoc.
    erewrite bind_run by exact IH.
    unfold mret, M_ret.
    replace (length (h0 ++ Mat g :: map Mat gs ++ extra ++
                       [Mat (nan_pass_through g)]))
      with (S (length (h0 ++ Mat g :: map Mat gs ++ extra))); [done|].
    rewrite !length_app. cbn [length]. rewrite !length_app. cbn [length].
    lia.
Qed.

Lemma setitem_mask_agrees h p mask vmask k :
  mask_at h mask vmask ->
  agrees (Store.setitem_mask (Whole (length h)) mask F64.nan
            (h ++ Mat p :: k))
    (Np.setitem_mask p vmask F64.nan)
    (fun _ h' q => h' = h ++ Mat q :: k).
Proof.
  intros Hmask. unfold Store.setitem_mask.
  erewrite bind_run by (apply read_mat_at, mat_at_middle).
  erewrite bind_run by (by apply read_mask_at, mask_at_app).
  unfold mbind, M_bind, lift.
  destruct (Np.setitem_mask p vmask F64.nan) as [q|]; [|done].
  unfold write_mat. rewrite list_lookup_middle by done.
  by rewrite insert_middle.
Qed.

Lemma setitem_loop_agrees mask vmask (ps : list array2) : forall h1,
  mask_at h1 mask vmask ->
  agrees
    (mapM (fun val => Store.setitem_mask val mask F64.nan)
       (map Whole (seq (length h1) (length ps))) (h1 ++ map Mat ps))
    (mapM (fun val => Np.setitem_mask val vmask F64.nan) ps)
    (fun _ h' qs => h' = h1 ++ map Mat qs /\ length qs = length ps).
Proof.
  induction ps as [|p ps IH]; intros h1 Hmask.
  - simpl. by rewrite app_nil_r.
  - cbn [length seq map]. rewrite mapM_cons_store, mapM_cons_option.
    eapply agrees_bind; [by apply setitem_mask_agrees|].
    intros ? h' q ->.
    specialize (IH (h1 ++ [Mat q]) (mask_at_app _ _ _ _ Hmask)).
    rewrite length_snoc in IH. rewrite <- app_assoc in IH. cbn [app] in IH.
    eapply agrees_bind; [exact IH|].
    intros ? h'' qs [-> Hlen]. simpl. rewrite <- app_assoc.
    split; [done|]. by rewrite Hlen.
Qed.

Lemma mat_at_block h (qs : list array2) :
  Forall2 (mat_at (h ++ map Mat qs))
    (map Whole (seq (length h) (length qs))) qs.
Proof.
  revert h. induction qs as [|q qs IH]; intros h; simpl; [constructor|].
  constructor.
  - apply mat_at_middle.
  - specialize (IH (h ++ [Mat q])). rewrite length_snoc in IH.
    by rewrite <- app_assoc in IH.
Qed.

Lemma agrees_then_ret {A A' B} (m : M A) (f : A -> A') (p : option B) h
    (R : A -> heap -> B -> Prop) (S : A' -> heap -> B -> Prop) :
  agrees (m h) p R ->
  (forall a h' b, R a h' b -> S (f a) h' b) ->
  agrees ((m ≫= fun a => mret (f a)) h) p S.
Proof.
  intros Hm HS. unfold mbind, M_bind, mret, M_ret.
  destruct (m h) as [[a h']|], p as [b|]; simpl in *; try done.
  by apply HS.
Qed.

Lemma interpolate_output_agrees x y values extent vx vy vvalues h :
  vec_of h x vx -> vec_of h y vy -> Forall2 (vec_of h) values vvalues ->
  agrees (Store.interpolate_output griddata x y values extent h)
    (value_interpolate_output griddata vx vy vvalues extent)
    (fun refs h' vouts => Forall2 (mat_at h') refs vouts).
Proof.
  intros Hx Hy Hvs. destruct extent as [[[e0 e1] e2] e3].
  unfold Store.interpolate_output, value_interpolate_output, grid_of.
  erewrite bind_run by apply linspace_run.
  erewrite bind_run by apply linspace_run.
  erewrite bind_run.
  2:{ apply meshgrid_ij_run; [|apply vec_of_new].
      eapply vec_of_prefix; [apply vec_of_new|solve_prefix]. }
  set (vxi := fst (Np.meshgrid_ij (Np.linspace e0 e1 100)
                     (Np.linspace e2 e3 100))).
  set (vyi := snd (Np.meshgrid_ij (Np.linspace e0 e1 100)
                     (Np.linspace e2 e3 100))).
  set (h2 := (h ++ [Vec (Np.linspace e0 e1 100)]) ++
             [Vec (Np.linspace e2 e3 100)]).
  assert (Hxi : mat_at (h2 ++ [Mat vxi; Mat vyi]) (Whole (length h2)) vxi)
    by apply mat_at_middle.
  assert (Hyi : mat_at (h2 ++ [Mat vxi; Mat vyi]) (Whole (S (length h2))) vyi).
  { exists (S (length h2)). split; [done|].
    rewrite (lookup_app_r h2) by lia.
    by replace (S (length h2) - length h2)%nat with 1%nat by lia. }
  destruct (heat_sink_mask_run _ _ _ _ _ Hxi Hyi) as (temps & Hmask).
  erewrite bind_run by exact Hmask.
  set (h3 := h2 ++ [Mat vxi; Mat vyi]) in *.
  set (vmask := value_heat_sink_mask vxi vyi) in *.
  assert (Hpre : h `prefix_of` h3 ++ Mask vmask :: temps).
  { unfold h3, h2. solve_prefix. }
  change (Np.meshgrid_ij (Np.linspace e0 e1 100) (Np.linspace e2 e3 100))
    with (vxi, vyi).
  cbv beta iota zeta.
  eapply agrees_bind.
  { apply griddata_loop_agrees.
    - by eapply vec_of_prefix.
    - by eapply vec_of_prefix.
    - by apply mat_at_app.
    - by apply mat_at_app.
    - eapply Forall2_impl; [exact Hvs|]. intros. by eapply vec_of_prefix. }
  intros rs h' gs [-> ->].
  set (h4 := h3 ++ Mask vmask :: temps) in *.
  pose proof (nan_to_num_loop_run gs h4 []) as Hcopy.
  rewrite !app_nil_r in Hcopy. simpl in Hcopy.
  erewrite bind_run by exact Hcopy.
  rewrite app_assoc.
  assert (Hm : mask_at (h4 ++ map Mat gs) (Whole (length h3)) vmask).
  { apply mask_at_app. apply mask_at_middle. }
  fold vmask.
  replace (length gs) with (length (map nan_pass_through gs))
    by apply length_map.
  eapply agrees_then_ret; [by apply setitem_loop_agrees|].
  intros us h' qs [-> Hlen]. simpl. rewrite <- Hlen. apply mat_at_block.
Qed.

Lemma sub2d_run h a b va vb :
  mat_at h a va -> mat_at h b vb ->
  Store.sub2d a b h = Some (Whole (length h), h ++ [Mat (Np.sub2d va vb)]).
Proof.
  intros Ha Hb. unfold Store.sub2d.
  by rewrite (bind_run _ _ _ _ _ (read_mat_at _ _ _ Ha)),
    (bind_run _ _ _ _ _ (read_mat_at _ _ _ Hb)).
Qed.

Lemma panel_data_agrees h refs vals :
  Forall2 (mat_at h) refs vals ->
  agrees (Store.panel_data refs h) (value_panel_data vals)
    (fun data h' vdata => Forall2 (mat_at h') data vdata).
Proof.
  intros H. unfold Store.panel_data, value_panel_data.
  do 10 (destruct H as [|? ? ? ? ? H]; [exact I|]).
  destruct H as [|? ? ? ? ? H]; [|exact I].
  repeat (erewrite bind_run by (apply sub2d_run; transport)).
  unfold mret, M_ret. simpl.
  repeat (constructor; [transport|]). constructor.
Qed.

Lemma draw_panel_agrees h data vdata i :
  Forall2 (mat_at h) data vdata ->
  agrees (Store.draw_panel data i h) (value_draw_panel vdata i)
    (fun P h' Q => P = Q /\ h' = h).
Proof.
  intros H. unfold Store.draw_panel, value_draw_panel.
  apply agrees_lift. intros var _.
  destruct (data !! i) as [d|] eqn:Hd.
  - destruct (Forall2_lookup_l _ _ _ _ _ H Hd) as (vd & Hvd & (l & -> & Hl)).
    rewrite Hvd. unfold mbind at 1, M_bind, lift. simpl.
    apply agrees_lift. intros t _.
    unfold mbind at 1 2, M_bind, transpose_view, mret, M_ret.
    simpl. rewrite Hl.
    case_bool_decide; [|done].
    apply agrees_lift. by intros lim _.
  - assert (Hvd : vdata !! i = None).
    { apply lookup_ge_None. rewrite <- (Forall2_length _ _ _ H).
      by apply lookup_ge_None. }
    rewrite Hvd. done.
Qed.

Lemma draw_panels_agrees h data vdata (idx : list nat) :
  Forall2 (mat_at h) data vdata ->
  agrees (mapM (Store.draw_panel data) idx h)
    (mapM (value_draw_panel vdata) idx)
    (fun Ps h' Qs => Ps = Qs /\ h' = h).
Proof.
  intros H. induction idx as [|i idx IH]; [done|].
  rewrite mapM_cons_store, mapM_cons_option.
  eapply agrees_bind; [by apply draw_panel_agrees|].
  intros P ? ? [-> ->].
  eapply agrees_bind; [exact IH|].
  by intros Ps ? ? [-> ->].
Qed.

Lemma call_agrees invar true_outvar pred_outvar h :
  agrees (Store.call griddata invar true_outvar pred_outvar h)
    (value_call griddata (snapshot h invar) (snapshot h true_outvar)
       (snapshot h pred_outvar))
    (fun res _ vres => res = vres).
Proof.
  unfold Store.call, value_call.
  eapply agrees_bind; [apply call_inputs_agrees|].
  intros [[[x y] extent] values] h1 [[[vx vy] vextent] vvalues]
    (-> & Hx & Hy & Hvs).
  eapply agrees_bind; [by apply interpolate_output_agrees|].
  intros refs h2 vals Hrefs.
  eapply agrees_bind; [by apply panel_data_agrees|].
  intros data h3 vdata Hdata.
  eapply agrees_bind; [by apply draw_panels_agrees|].
  by intros Ps ? ? [-> ->].
Qed.

End Loops.

End StoreSim.

(** The call over the store and the call over array values fail
    together, and otherwise return the same figure: the store-level
    definition is the value-level one with the arrays placed in a
    store. *)
Theorem store_call_agrees_with_call
    (griddata :
       array1 -> array1 -> array1 -> array2 -> array2 -> option array2)
    (invar true_outvar pred_outvar : Store.fields) (h : Store.heap) :
  let value_result :=
    call griddata (Store.snapshot h invar) (Store.snapshot h true_outvar)
      (Store.snapshot h pred_outvar) in
  (forall res h',
     Store.call griddata invar true_outvar pred_outvar h = Some (res, h') ->
     value_result = Some res) /\
  (forall res,
     value_result = Some res ->
     exists h',
       Store.call griddata invar true_outvar pred_outvar h = Some (res, h')).
Proof.
  pose proof (StoreSim.call_agrees griddata invar true_outvar pred_outvar h)
    as H.
  unfold Store.agrees in H. simpl. split.
  - intros res h' Hcall. rewrite Hcall in H.
    destruct (call _ _ _ _) as [vres|]; [by subst|done].
  - intros res Hres. rewrite Hres in H.
    destruct (Store.call _ _ _ _ _) as [[res' h']|]; [|done].
    subst. by exists h'.
Qed.
